(** * Ticket redemption relay ([server/redeemer.go]): model and properties

    A shallow embedding of the redemption relay ([Redeemer]), its client-side
    proxy ([RedeemerClient]) and the wire codec ([pmTicket], [protoTicket]),
    followed by the properties of the specification that concern them.

    Conventions of the embedding:
    - a [*big.Int] that is known not to be nil is a [Z]; one that may be nil
      is an [option Z];
    - a [[]byte] is a [list byte] (a nil slice and an empty slice are both
      [[]], as they are on the wire);
    - [ethcommon.Address] ([[20]byte]) and [ethcommon.Hash] ([[32]byte]) are
      vectors of bytes of that length;
    - a [time.Time] is a number of nanoseconds, a [time.Duration] likewise;
    - a Go [error] is the text its [Error()] method returns;
    - [sync.Map] and Go maps are finite maps ([gmap]). *)

From Stdlib Require Import ZArith Lia.
From Stdlib Require Import Strings.Byte.
From stdpp Require Import base decidable countable vector list gmap strings.
From coqutil Require Byte.

Local Open Scope Z_scope.

(** ** Bytes *)

(** A byte, with coqutil's conversions [byte.of_Z] (which wraps modulo 256)
    and [byte.unsigned]. *)
Abbreviation byte := Init.Byte.byte.
Module byte := coqutil.Byte.byte.

Global Instance byte_eq_decision : EqDecision byte := Byte.byte_eq_dec.

Global Instance byte_countable : Countable byte :=
  inj_countable Byte.to_N Byte.of_N Byte.of_to_N.

(** ** [math/big]: the operations of [*big.Int] the relay uses *)

Module big.

(** [new(big.Int).SetBytes(buf)]: [buf] read as a big-endian unsigned
    integer; the empty slice gives zero. *)
Definition SetBytes (buf : list byte) : Z :=
  fold_left (fun acc b => acc * 256 + byte.unsigned b) buf 0.

(** Number of bytes of the shortest big-endian form of [n >= 0]. *)
Definition byteLen (n : Z) : nat :=
  if n =? 0 then O else S (Z.to_nat (Z.log2 n / 8)).

(** The [k] low bytes of [n], most significant first. *)
Definition bigEndian (k : nat) (n : Z) : list byte :=
  map (fun i => byte.of_Z (Z.shiftr n (8 * Z.of_nat i))) (rev (seq 0 k)).

(** [x.Bytes()]: the absolute value of [x] as a big-endian byte slice
    without leading zero bytes (the sign is dropped). *)
Definition Bytes (x : Z) : list byte :=
  bigEndian (byteLen (Z.abs x)) (Z.abs x).

(** [x.Cmp(y)]: -1, 0 or +1. *)
Definition Cmp (x y : Z) : Z :=
  match x ?= y with Lt => -1 | Eq => 0 | Gt => 1 end.

(** Conversion of an unsigned 64-bit pattern to [int64] (two's complement),
    also the wrap-around of [int64] arithmetic. *)
Definition int64 (u : Z) : Z := (u + 2 ^ 63) mod 2 ^ 64 - 2 ^ 63.

(** [low64(x.abs)]: the 64 low bits of the magnitude. *)
Definition low64 (n : Z) : Z := n mod 2 ^ 64.

(** [x.Int64()]:
<<
    v := int64(low64(x.abs)); if x.neg { v = -v }; return v
>> *)
Definition Int64 (x : Z) : Z :=
  let v := int64 (low64 (Z.abs x)) in
  if x <? 0 then int64 (- v) else v.

End big.

(** ** [ethcommon]: addresses and hashes *)

Module ethcommon.

Definition AddressLength : nat := 20.
Definition HashLength : nat := 32.

Abbreviation Address := (vec byte AddressLength).
Abbreviation Hash := (vec byte HashLength).

(** [SetBytes] of [Address] and [Hash]: when [b] is longer than [n] bytes it
    is cropped from the left, otherwise it is copied to the right end of a
    zeroed array. *)
Definition setBytes (n : nat) (b : list byte) : list byte :=
  let b' := drop (length b - n)%nat b in
  replicate (n - length b')%nat "000"%byte ++ b'.

Definition BytesToFixed (n : nat) (b : list byte) : vec byte n :=
  fun_to_vec (fun i : fin n => default "000"%byte (setBytes n b !! fin_to_nat i)).

Definition BytesToAddress (b : list byte) : Address := BytesToFixed AddressLength b.
Definition BytesToHash (b : list byte) : Hash := BytesToFixed HashLength b.

(** [a.Bytes()] is [a[:]]. *)
Definition Bytes {n} (a : vec byte n) : list byte := vec_to_list a.

Lemma setBytes_exact (n : nat) (b : list byte) :
  length b = n -> setBytes n b = b.
Proof.
  intros <-. unfold setBytes. rewrite Nat.sub_diag, drop_0, Nat.sub_diag. reflexivity.
Qed.

(** An array survives the passage through its slice. *)
Lemma BytesToFixed_Bytes (n : nat) (a : vec byte n) :
  BytesToFixed n (Bytes a) = a.
Proof.
  apply vec_eq. intros i. unfold BytesToFixed, Bytes.
  rewrite lookup_fun_to_vec, setBytes_exact by apply length_vec_to_list.
  destruct (vec_to_list a !! fin_to_nat i) as [x|] eqn:E; simpl.
  - symmetry. apply vlookup_lookup. exact E.
  - apply lookup_ge_None in E. rewrite length_vec_to_list in E.
    pose proof (fin_to_nat_lt i). lia.
Qed.

(** Arrays as keys of maps: counted through their slices, so that maps
    keyed by addresses compute. *)
Global Instance fixed_countable (n : nat) : Countable (vec byte n) :=
  inj_countable' Bytes (BytesToFixed n) (BytesToFixed_Bytes n).

End ethcommon.
Import ethcommon.

(** ** Shared vocabulary *)

(** A Go [error], by the text of its [Error()] method. *)
Abbreviation error := string (only parsing).

(** A pair [(value, error)] as Go functions return it: a value with a nil
    error, or an error with no value. *)
Inductive result (A : Type) : Type :=
| ok (a : A)
| failed (e : error).
Arguments ok {A} a.
Arguments failed {A} e.

(** How a call ends: it returns, it panics (nil dereference), or it blocks
    for ever on a lock or channel nobody will release. *)
Inductive outcome (A : Type) : Type :=
| Returns (a : A)
| Panics
| Blocks.
Arguments Returns {A} a.
Arguments Panics {A}.
Arguments Blocks {A}.

(** [time.Time] and [time.Duration], in nanoseconds. *)
Abbreviation Time := Z (only parsing).

(** [var cleanupLoopTime = 1 * time.Hour] *)
Definition cleanupLoopTime : Z := 1 * 3600000000000.

(** [t.Add(d).Before(u)] *)
Definition expired (lastAccess now : Time) : bool :=
  bool_decide (lastAccess + cleanupLoopTime < now).

(** [google.golang.org/grpc/codes] and [status]: the one code the relay
    uses, and a status error by its code and message. *)
Module codes.
Inductive Code : Set := Internal.
End codes.

Module status.
Record Status : Type := { Code : codes.Code; Message : string }.
Definition Error (c : codes.Code) (msg : string) : Status :=
  {| Code := c; Message := msg |}.
End status.

(** ** [net]: the wire messages (generated from [redeemer.proto]); only
    the fields the relay reads or writes. A nested message is a pointer and
    may be nil. *)
Module net.

Record TicketParams : Type := {
  Recipient : list byte;
  FaceValue : list byte;
  WinProb : list byte;
  RecipientRandHash : list byte;
  ExpirationBlock : list byte
}.

Record TicketSenderParams : Type := {
  SenderNonce : Z;
  Sig : list byte
}.

Record TicketExpirationParams : Type := {
  CreationRound : Z;
  CreationRoundBlockHash : list byte
}.

Record Ticket : Type := {
  Sender : list byte;
  RecipientRand : list byte;
  TicketParams_ : option TicketParams;
  SenderParams : option TicketSenderParams;
  ExpirationParams : option TicketExpirationParams
}.

Record QueueTicketRes : Type := { }.

Record MaxFloatReq : Type := { req_Sender : list byte }.

Record MaxFloatUpdate : Type := {
  upd_Sender : list byte;
  MaxFloat : list byte
}.

Global Instance MaxFloatReq_eq_dec : EqDecision MaxFloatReq.
Proof. solve_decision. Defined.

Global Instance MaxFloatUpdate_eq_dec : EqDecision MaxFloatUpdate.
Proof. solve_decision. Defined.

End net.

(** ** [pm]: the domain objects *)
Module pm.

Record Ticket : Type := {
  Recipient : Address;
  Sender : Address;
  FaceValue : Z;
  WinProb : Z;
  SenderNonce : Z;
  RecipientRandHash : Hash;
  CreationRound : Z;
  CreationRoundBlockHash : Hash;
  ParamsExpirationBlock : Z
}.

(** [SignedTicket] embeds [*Ticket]. *)
Record SignedTicket : Type := {
  Ticket_ : Ticket;
  RecipientRand : Z;
  Sig : list byte
}.

(** [SenderInfo]: the field [ValidateSender] reads. *)
Record SenderInfo : Type := { WithdrawRound : Z }.

End pm.

(** ** Wire codec *)

(** [pmTicket]: wire to domain. Reading a field of a nil nested message
    panics. *)
Definition pmTicket (ticket : net.Ticket) : outcome pm.SignedTicket :=
  match net.TicketParams_ ticket, net.SenderParams ticket, net.ExpirationParams ticket with
  | Some tp, Some sp, Some ep =>
    Returns {|
      pm.Ticket_ := {|
        pm.Recipient := BytesToAddress (net.Recipient tp);
        pm.Sender := BytesToAddress (net.Sender ticket);
        pm.FaceValue := big.SetBytes (net.FaceValue tp);
        pm.WinProb := big.SetBytes (net.WinProb tp);
        pm.SenderNonce := net.SenderNonce sp;
        pm.RecipientRandHash := BytesToHash (net.RecipientRandHash tp);
        pm.CreationRound := net.CreationRound ep;
        pm.CreationRoundBlockHash := BytesToHash (net.CreationRoundBlockHash ep);
        pm.ParamsExpirationBlock := big.SetBytes (net.ExpirationBlock tp)
      |};
      pm.RecipientRand := big.SetBytes (net.RecipientRand ticket);
      pm.Sig := net.Sig sp
    |}
  | _, _, _ => Panics
  end.

(** [protoTicket]: domain to wire, for a ticket without nil pointer (on a
    nil [*Ticket] or a nil [*big.Int] among the fields it reads, the Go
    function panics; [pm.SignedTicket] holds no such ticket). *)
Definition protoTicket (ticket : pm.SignedTicket) : net.Ticket :=
  let t := pm.Ticket_ ticket in
  {|
    net.Sender := ethcommon.Bytes (pm.Sender t);
    net.RecipientRand := ethcommon.Bytes (pm.Recipient t);
    net.TicketParams_ := Some {|
      net.Recipient := ethcommon.Bytes (pm.Recipient t);
      net.FaceValue := big.Bytes (pm.FaceValue t);
      net.WinProb := big.Bytes (pm.WinProb t);
      net.RecipientRandHash := ethcommon.Bytes (pm.RecipientRandHash t);
      net.ExpirationBlock := big.Bytes (pm.ParamsExpirationBlock t)
    |};
    net.SenderParams := Some {|
      net.SenderNonce := pm.SenderNonce t;
      net.Sig := pm.Sig ticket
    |};
    net.ExpirationParams := Some {|
      net.CreationRound := pm.CreationRound t;
      net.CreationRoundBlockHash := ethcommon.Bytes (pm.CreationRoundBlockHash t)
    |}
  |}.

(** ** The relay: [Redeemer] *)
Module Redeemer.

(** A channel made by [make(chan ...)], by its identity. *)
Abbreviation chan := nat (only parsing).

(** A goroutine running [monitorMaxFloat(sender)], by the point it has
    reached. [sync.Map]'s [Load] and [Store] are atomic one by one, so a
    goroutine can be preempted between them. *)
Inductive goroutine : Type :=
| mmf_entry (sender : Address)
    (* about to run [r.liveSenders.Load(sender)] *)
| mmf_loaded (sender : Address) (ok : bool)
    (* [Load] has returned [ok]; about to run [Store(sender, time.Now())] *)
| mmf_stored (sender : Address)
    (* not found, stored; about to run [r.sm.SubscribeMaxFloat(sender, sink)] *)
| mmf_select (sender : Address)
    (* subscribed; waiting in the [for { select {...} }] loop *)
| mmf_returned.

Global Instance goroutine_eq_dec : EqDecision goroutine.
Proof. solve_decision. Defined.

(** The fields of [Redeemer] that change, the goroutines started with [go],
    the senders [r.sm.SubscribeMaxFloat] was called for that have not been
    unsubscribed, and the next fresh channel. *)
Record state : Type := {
  subs : gmap string chan;
  liveSenders : gmap Address Time;
  goroutines : list goroutine;
  subscriptions : list Address;
  nextChan : chan
}.

Definition set_subs (f : gmap string chan -> gmap string chan) (st : state) : state :=
  {| subs := f (subs st); liveSenders := liveSenders st;
     goroutines := goroutines st; subscriptions := subscriptions st;
     nextChan := nextChan st |}.

Definition set_liveSenders (f : gmap Address Time -> gmap Address Time) (st : state) : state :=
  {| subs := subs st; liveSenders := f (liveSenders st);
     goroutines := goroutines st; subscriptions := subscriptions st;
     nextChan := nextChan st |}.

Definition set_goroutines (f : list goroutine -> list goroutine) (st : state) : state :=
  {| subs := subs st; liveSenders := liveSenders st;
     goroutines := f (goroutines st); subscriptions := subscriptions st;
     nextChan := nextChan st |}.

Definition set_subscriptions (f : list Address -> list Address) (st : state) : state :=
  {| subs := subs st; liveSenders := liveSenders st;
     goroutines := goroutines st; subscriptions := f (subscriptions st);
     nextChan := nextChan st |}.

Definition set_nextChan (f : chan -> chan) (st : state) : state :=
  {| subs := subs st; liveSenders := liveSenders st;
     goroutines := goroutines st; subscriptions := subscriptions st;
     nextChan := f (nextChan st) |}.

(** [go f(...)] *)
Definition spawn (g : goroutine) : state -> state :=
  set_goroutines (fun gs => gs ++ [g]).

Section QueueTicket.

(** [r.sm.QueueTicket(t)]: the Float Authority's answer, nil or an error. *)
Variable sm_QueueTicket : pm.SignedTicket -> option error.

(** [QueueTicket]: the response and the error returned, and the
    state after the call. *)
Definition QueueTicket (ticket : net.Ticket) (st : state)
  : outcome (option net.QueueTicketRes * option status.Status) * state :=
  match pmTicket ticket with
  | Returns t =>
    match sm_QueueTicket t with
    | Some err => (Returns (None, Some (status.Error codes.Internal err)), st)
    | None =>
      (Returns (Some net.Build_QueueTicketRes, None),
       spawn (mmf_entry (BytesToAddress (net.Sender ticket))) st)
    end
  | Panics => (Panics, st)
  | Blocks => (Blocks, st)
  end.

End QueueTicket.

(** One step of a goroutine running [monitorMaxFloat], up to the point
    where it waits in its [select]; [now] is what [time.Now()] reads. *)
Definition monitorMaxFloat_step (now : Time) (g : goroutine) (st : state)
  : goroutine * state :=
  match g with
  | mmf_entry sender =>
    (mmf_loaded sender (bool_decide (is_Some (liveSenders st !! sender))), st)
  | mmf_loaded sender true =>
    (mmf_returned, set_liveSenders (insert sender now) st)
  | mmf_loaded sender false =>
    (mmf_stored sender, set_liveSenders (insert sender now) st)
  | mmf_stored sender =>
    (mmf_select sender, set_subscriptions (fun l => l ++ [sender]) st)
  | mmf_select sender => (mmf_select sender, st)
  | mmf_returned => (mmf_returned, st)
  end.

(** The scheduler lets goroutine number [i] take its next step. *)
Definition step (i : nat) (now : Time) (st : state) : state :=
  match goroutines st !! i with
  | Some g =>
    let '(g', st') := monitorMaxFloat_step now g st in
    set_goroutines (fun gs => <[i := g']> gs) st'
  | None => st
  end.

(** A schedule: which goroutine steps next, and the clock at that step. *)
Definition run (schedule : list (nat * Time)) (st : state) : state :=
  foldl (fun st '(i, now) => step i now st) st schedule.

(** The background monitors of [sender]: the goroutines subscribed to its
    Float Authority stream. *)
Definition monitors (sender : Address) (st : state) : nat :=
  length (filter (fun g => g = mmf_select sender) (goroutines st)).

(** [sendMaxFloatUpdate]: the message built in the callback of [Range]. *)
Definition maxFloatUpdate (sender : Address) (maxFloat : option Z) : net.MaxFloatUpdate :=
  let maxFloatB := match maxFloat with
                   | Some mf => big.Bytes mf
                   | None => []
                   end in
  {| net.upd_Sender := ethcommon.Bytes sender; net.MaxFloat := maxFloatB |}.

(** What became of a broadcast: every send completed, or the broadcaster
    is blocked in a send on channel [c]. Either way, [sent] is what was
    delivered, in order. *)
Inductive broadcast : Type :=
| Delivered (sent : list (chan * net.MaxFloatUpdate))
| BlockedOn (c : chan) (sent : list (chan * net.MaxFloatUpdate)).

Definition deliver (m : chan * net.MaxFloatUpdate) (b : broadcast) : broadcast :=
  match b with
  | Delivered sent => Delivered (m :: sent)
  | BlockedOn c sent => BlockedOn c (m :: sent)
  end.

(** The subscriber channels are unbuffered: a send completes only when a
    handler is receiving from the channel ([receiving]). *)
Fixpoint sendEach (receiving : gset chan) (sender : Address) (maxFloat : option Z)
    (entries : list (string * chan)) : broadcast :=
  match entries with
  | [] => Delivered []
  | (_, c) :: rest =>
    if decide (c ∈ receiving)
    then deliver (c, maxFloatUpdate sender maxFloat) (sendEach receiving sender maxFloat rest)
    else BlockedOn c []
  end.

(** [sendMaxFloatUpdate]: [r.subs.Range] visits every entry. *)
Definition sendMaxFloatUpdate (receiving : gset chan) (sender : Address)
    (maxFloat : option Z) (st : state) : broadcast :=
  sendEach receiving sender maxFloat (map_to_list (subs st)).

(** What [stream.Send] returned. *)
Inductive sendResult : Type :=
| sent_ok
| sent_EOF
| sent_error (e : error).

(** What the [select] of [MonitorMaxFloat] receives next. *)
Inductive streamEvent : Type :=
| ev_update (u : net.MaxFloatUpdate) (r : sendResult)
    (* an update on the channel, and the result of forwarding it *)
| ev_quit
| ev_ctxDone.

(** The [for { select {...} }] loop of [MonitorMaxFloat]. [None]: the handler
    is still waiting; [Some e]: it returned [e]. *)
Fixpoint MonitorMaxFloat_loop (addr : string) (events : list streamEvent) (st : state)
  : option (option status.Status) * state :=
  match events with
  | [] => (None, st)
  | ev_update _ sent_ok :: rest => MonitorMaxFloat_loop addr rest st
  | ev_update _ sent_EOF :: _ =>
    (Some (Some (status.Error codes.Internal "EOF")), set_subs (delete addr) st)
  | ev_update _ (sent_error _) :: rest => MonitorMaxFloat_loop addr rest st
  | ev_quit :: _ => (Some None, st)
  | ev_ctxDone :: _ => (Some None, st)
  end.

(** Registration: the channel already stored under the peer's address, or
    a new one stored under it. *)
Definition register (addr : string) (st : state) : chan * state :=
  match subs st !! addr with
  | Some c => (c, st)
  | None =>
    let c := nextChan st in
    (c, set_subs (insert addr c) (set_nextChan S st))
  end.

(** [MonitorMaxFloat]; [peer] is the result of [peer.FromContext]. *)
Definition MonitorMaxFloat (peer : option string) (events : list streamEvent) (st : state)
  : option (option status.Status) * state :=
  match peer with
  | None => (Some (Some (status.Error codes.Internal "context is nil")), st)
  | Some addr =>
    let '(_, st1) := register addr st in
    MonitorMaxFloat_loop addr events st1
  end.

(** One pass of the cleanup loop over [r.liveSenders]. *)
Definition sweepEntry (now : Time) (m : gmap Address Time) (kv : Address * Time)
  : gmap Address Time :=
  if expired kv.2 now then delete kv.1 m else m.

Definition sweep (now : Time) (m : gmap Address Time) : gmap Address Time :=
  foldl (sweepEntry now) m (map_to_list m).

(** What the [select] of [startCleanupLoop] receives. *)
Inductive loopEvent : Type :=
| ev_tick (now : Time)
| ev_stop.

Fixpoint startCleanupLoop (events : list loopEvent) (st : state) : state :=
  match events with
  | [] => st
  | ev_tick now :: rest => startCleanupLoop rest (set_liveSenders (sweep now) st)
  | ev_stop :: _ => st
  end.

(** [NewRedeemer]: a relay with no subscriber, no live sender and no
    goroutine yet. *)
Definition initial : state :=
  {| subs := ∅; liveSenders := ∅; goroutines := [];
     subscriptions := []; nextChan := 0%nat |}.

(** Goroutine [i] runs [monitorMaxFloat] from its start to its [select] (or
    its return) with no other goroutine in between. *)
Definition settle (i : nat) (now : Time) : state -> state :=
  run [(i, now); (i, now); (i, now)].

Section Schedules.

Variable sm_QueueTicket : pm.SignedTicket -> option error.

(** A ticket is queued and the goroutine it starts settles before anything
    else happens. *)
Definition queueThenSettle (ticket : net.Ticket) (st : state) (now : Time) : state :=
  settle (length (goroutines st)) now (QueueTicket sm_QueueTicket ticket st).2.

(** Tickets queued one after the other, at the given times. *)
Definition sequentially (ticket : net.Ticket) (times : list Time) (st : state) : state :=
  foldl (queueThenSettle ticket) st times.

End Schedules.

(** Two goroutines, numbers [i] and [i + 1], taking turns: both load, both
    store, both subscribe. *)
Definition interleaving (i : nat) : list (nat * Time) :=
  [(i, 1); (S i, 2); (i, 3); (S i, 4); (i, 5); (S i, 6)].

Section MaxFloat.

(** [r.sm.MaxFloat(sender)]: a value (a pointer, which may be nil) or an
    error. *)
Variable sm_MaxFloat : Address -> result (option Z).

(** [MaxFloat], the unary query of the relay. [mf.Bytes()] on a nil [mf]
    panics. *)
Definition MaxFloat (req : net.MaxFloatReq)
  : outcome (option net.MaxFloatUpdate * option status.Status) :=
  match sm_MaxFloat (BytesToAddress (net.req_Sender req)) with
  | failed err =>
    Returns (None, Some (status.Error codes.Internal
                           (String.append "max float error: " err)))
  | ok None => Panics
  | ok (Some mf) =>
    Returns (Some {| net.upd_Sender := net.req_Sender req;
                     net.MaxFloat := big.Bytes mf |}, None)
  end.

End MaxFloat.

(** [sub.Unsubscribe()]: one subscription of [sender] less. *)
Fixpoint removeOne (sender : Address) (l : list Address) : list Address :=
  match l with
  | [] => []
  | a :: rest => if decide (a = sender) then rest else a :: removeOne sender rest
  end.

(** What the [select] of [monitorMaxFloat] receives: the shutdown signal, an
    error of the subscription, or a max float (possibly nil) on [sink]. *)
Inductive monitorEvent : Type :=
| mon_quit
| mon_err (e : error)
| mon_maxFloat (mf : option Z).

(** Where the loop of [monitorMaxFloat] stands: waiting in its [select],
    returned, or blocked in a send of a broadcast. *)
Inductive monitorStatus : Type :=
| mon_waiting
| mon_returned
| mon_blocked (c : chan).

(** The [for { select {...} }] loop of [monitorMaxFloat], run by goroutine
    [i] for [sender]: its status, what it delivered to the subscriber
    channels, in order, and the state. On [quit] the deferred
    [sub.Unsubscribe()] runs. The registry and the channels with a handler
    receiving ([receiving]) are taken as they stand for the whole run. *)
Fixpoint monitorMaxFloat_select (receiving : gset chan) (i : nat) (sender : Address)
    (events : list monitorEvent) (st : state)
  : monitorStatus * list (chan * net.MaxFloatUpdate) * state :=
  match events with
  | [] => (mon_waiting, [], st)
  | mon_quit :: _ =>
    (mon_returned, [],
     set_goroutines (fun gs => <[i := mmf_returned]> gs)
       (set_subscriptions (removeOne sender) st))
  | mon_err _ :: rest => monitorMaxFloat_select receiving i sender rest st
  | mon_maxFloat mf :: rest =>
    match sendMaxFloatUpdate receiving sender mf st with
    | Delivered sent =>
      let '(status, more, st') := monitorMaxFloat_select receiving i sender rest st in
      (status, sent ++ more, st')
    | BlockedOn c sent => (mon_blocked c, sent, st)
    end
  end.

(** No two peers share a channel, and the next channel is new. *)
Definition registryOk (st : state) : Prop :=
  (forall a c, subs st !! a = Some c -> (c < nextChan st)%nat)
  /\ (forall a b c, subs st !! a = Some c -> subs st !! b = Some c -> a = b).

(** What one change of the max float of [sender] puts on the channels
    when every send completes: one message per registry entry. *)
Definition fanOut (sender : Address) (st : state) (maxFloat : option Z)
  : list (chan * net.MaxFloatUpdate) :=
  map (fun kv : string * chan => (kv.2, maxFloatUpdate sender maxFloat))
      (map_to_list (subs st)).

(** The max floats among the events of a monitor, in order. *)
Definition changes (events : list monitorEvent) : list (option Z) :=
  omap (fun ev => match ev with mon_maxFloat mf => Some mf | _ => None end) events.

End Redeemer.

(** ** The proxy: [RedeemerClient] *)
Module RedeemerClient.

(** An entry of [r.senders]: [maxFloat] may be nil. *)
Record cacheEntry : Type := {
  maxFloat : option Z;
  lastAccess : Time
}.

(** What the client does to its surroundings, in order. *)
Inductive effect : Type :=
| eff_Lock                                  (* [r.mu.Lock()] acquired *)
| eff_Unlock                                (* [r.mu.Unlock()] *)
| eff_rpcMaxFloat (req : net.MaxFloatReq)   (* [r.rpc.MaxFloat(ctx, req)] *)
| eff_Clear (sender : Address).             (* [r.sm.Clear(sender)] *)

Global Instance effect_eq_dec : EqDecision effect.
Proof. solve_decision. Defined.

(** The cache, whether [r.mu] is held, and the effects so far. *)
Record state : Type := {
  senders : gmap Address cacheEntry;
  mu : bool;
  effects : list effect
}.

Definition emit (e : effect) (st : state) : state :=
  {| senders := senders st; mu := mu st; effects := effects st ++ [e] |}.

(** [r.mu.Lock()] once the mutex is free, and [r.mu.Unlock()]. *)
Definition Lock (st : state) : state :=
  emit eff_Lock {| senders := senders st; mu := true; effects := effects st |}.

Definition Unlock (st : state) : state :=
  emit eff_Unlock {| senders := senders st; mu := false; effects := effects st |}.

Definition set_senders (f : gmap Address cacheEntry -> gmap Address cacheEntry)
    (st : state) : state :=
  {| senders := f (senders st); mu := mu st; effects := effects st |}.

Section Calls.

(** [r.rpc.MaxFloat(ctx, req)]: the relay's answer, or an error (transport,
    deadline, or a status the relay returned). *)
Variable rpc_MaxFloat : net.MaxFloatReq -> result net.MaxFloatUpdate.

(** [MaxFloat]. [mf] points into the map, so the assignment to
    [mf.lastAccess] changes the entry of the cache. A call that finds the
    mutex held waits in [Lock]. *)
Definition MaxFloat (sender : Address) (now : Time) (st : state)
  : outcome (result Z) * state :=
  if mu st then (Blocks, st)
  else
    let st := Lock st in
    match senders st !! sender with
    | Some {| maxFloat := Some v |} =>
      (Returns (ok v),
       set_senders (insert sender {| maxFloat := Some v; lastAccess := now |}) st)
    | _ =>
      let st := Unlock st in
      let req := {| net.req_Sender := ethcommon.Bytes sender |} in
      let st := emit (eff_rpcMaxFloat req) st in
      match rpc_MaxFloat req with
      | failed err => (Returns (failed err), st)
      | ok mfu => (Returns (ok (big.SetBytes (net.MaxFloat mfu))), st)
      end
    end.

(** [r.sm.GetSenderInfo], [r.tm.LastInitializedRound()] and
    [ethcommon.Address.Hex]. *)
Variable GetSenderInfo : Address -> result pm.SenderInfo.
Variable LastInitializedRound : Z.
Variable Hex : Address -> string.

(** [ValidateSender]: nil, or an error. *)
Definition ValidateSender (sender : Address) : option error :=
  match GetSenderInfo sender with
  | failed err =>
    Some (String.append "could not get sender info for "
           (String.append (Hex sender) (String.append ": " err)))
  | ok info =>
    let maxWithdrawRound := LastInitializedRound + 1 in
    if negb (big.Int64 (pm.WithdrawRound info) =? 0)
       && negb (big.Cmp (pm.WithdrawRound info) maxWithdrawRound =? 1)
    then Some (String.append "deposit and reserve for sender "
                (String.append (Hex sender) " is set to unlock soon"))
    else None
  end.

End Calls.

(** The receive loop ([monitorMaxFloat]) on [update := <-updateC]. *)
Definition receiveUpdate (update : net.MaxFloatUpdate) (now : Time) (st : state)
  : outcome unit * state :=
  if mu st then (Blocks, st)
  else
    let st := Lock st in
    let st := set_senders
                (insert (BytesToAddress (net.upd_Sender update))
                        {| maxFloat := Some (big.SetBytes (net.MaxFloat update));
                           lastAccess := now |}) st in
    (Returns tt, Unlock st).

(** One pass of [startCleanupLoop] on a tick: every stale entry is deleted
    and [r.sm.Clear] is called for its sender. *)
Definition sweepEntry (now : Time) (st : state) (kv : Address * cacheEntry) : state :=
  if expired (lastAccess kv.2) now
  then emit (eff_Clear kv.1) (set_senders (delete kv.1) st)
  else st.

Definition sweep (now : Time) (st : state) : outcome unit * state :=
  if mu st then (Blocks, st)
  else
    let st := Lock st in
    let st := foldl (sweepEntry now) st (map_to_list (senders st)) in
    (Returns tt, Unlock st).

(** The background loops of the client, and the ones [Start] launches:
<<
    func (r *RedeemerClient) Start() {
        go r.monitorMaxFloat(context.Background())
    }
>> *)
Inductive loop : Type :=
| loop_monitorMaxFloat
| loop_startCleanupLoop.

Global Instance loop_eq_dec : EqDecision loop.
Proof. solve_decision. Defined.

Definition Start : list loop := [loop_monitorMaxFloat].

(** What happens around a client: the stream delivers an update, the
    stream reports an error, a period of [cleanupLoopTime] ends, or the
    issuer calls [MaxFloat]. Each carries the clock at that moment. *)
Inductive event : Type :=
| ev_update (u : net.MaxFloatUpdate) (now : Time)
| ev_recvError (e : error)
| ev_period (now : Time)
| ev_MaxFloat (sender : Address) (now : Time).

Section Run.

Variable rpc_MaxFloat : net.MaxFloatReq -> result net.MaxFloatUpdate.

(** The ticker of the cleanup loop exists only in a running
    [startCleanupLoop]; an update is taken only by a running
    [monitorMaxFloat]. A loop that blocks in [Lock] leaves the state as it
    is. *)
Definition react (running : list loop) (ev : event) (st : state) : state :=
  match ev with
  | ev_update u now =>
    if decide (loop_monitorMaxFloat ∈ running) then (receiveUpdate u now st).2 else st
  | ev_recvError _ => st
  | ev_period now =>
    if decide (loop_startCleanupLoop ∈ running) then (sweep now st).2 else st
  | ev_MaxFloat sender now => (MaxFloat rpc_MaxFloat sender now st).2
  end.

Definition run (running : list loop) (events : list event) (st : state) : state :=
  foldl (fun st ev => react running ev st) st events.

End Run.

(** How often [r.sm.Clear(sender)] was called. *)
Definition cleared (sender : Address) (st : state) : nat :=
  length (filter (fun e => e = eff_Clear sender) (effects st)).

(** The calls to the relay made so far. *)
Definition rpcCalls (st : state) : list net.MaxFloatReq :=
  omap (fun e => match e with eff_rpcMaxFloat req => Some req | _ => None end) (effects st).

(** The cached max float of [sender]: present only when there is an entry
    and its value is not nil. *)
Definition cached (sender : Address) (st : state) : option Z :=
  senders st !! sender ≫= maxFloat.

(** The answer of the relay as [MaxFloat] hands it on. *)
Definition decoded (r : result net.MaxFloatUpdate) : result Z :=
  match r with
  | ok mfu => ok (big.SetBytes (net.MaxFloat mfu))
  | failed err => failed err
  end.

(** [st'] has every entry of [st] and no call of [Clear] more. *)
Definition keeps (st st' : state) : Prop :=
  (forall sender, cleared sender st' = cleared sender st)
  /\ (forall sender, is_Some (senders st !! sender) -> is_Some (senders st' !! sender)).

(** [QueueTicket] of the client: the ticket is encoded and sent;
    [rpc_QueueTicket] is [r.rpc.QueueTicket], by the error it returns. *)
Definition QueueTicket (rpc_QueueTicket : net.Ticket -> option error)
    (ticket : pm.SignedTicket) : option error :=
  rpc_QueueTicket (protoTicket ticket).

(** What the [select] of the receive loop gets: the shutdown signal, the
    end of the context, an update from the stream, or an error from it. *)
Inductive recvEvent : Type :=
| rx_quit
| rx_ctxDone
| rx_update (u : net.MaxFloatUpdate) (now : Time)
| rx_error (e : error).

(** Where the receive loop stands: waiting in its [select], returned, or
    stuck in [Lock]. *)
Inductive loopStatus : Type :=
| loop_waiting
| loop_returned
| loop_stuck.

(** The [for { select {...} }] loop of [monitorMaxFloat]. *)
Fixpoint monitorMaxFloat_loop (events : list recvEvent) (st : state) : loopStatus * state :=
  match events with
  | [] => (loop_waiting, st)
  | rx_quit :: _ => (loop_returned, st)
  | rx_ctxDone :: _ => (loop_returned, st)
  | rx_update u now :: rest =>
    match receiveUpdate u now st with
    | (Returns _, st') => monitorMaxFloat_loop rest st'
    | (_, st') => (loop_stuck, st')
    end
  | rx_error _ :: rest => monitorMaxFloat_loop rest st
  end.

(** [monitorMaxFloat]: when the stream cannot be opened ([stream] is the
    error of [r.rpc.MonitorMaxFloat]) it returns at once. *)
Definition monitorMaxFloat (stream : option error) (events : list recvEvent) (st : state)
  : loopStatus * state :=
  match stream with
  | Some _ => (loop_returned, st)
  | None => monitorMaxFloat_loop events st
  end.

(** Neither the shutdown signal nor the end of the context. *)
Definition keepsReceiving (ev : recvEvent) : Prop :=
  match ev with
  | rx_quit | rx_ctxDone => False
  | _ => True
  end.

(** The max float a client reads from an update the relay built for
    [maxFloat]. *)
Definition streamedValue (maxFloat : option Z) : Z :=
  match maxFloat with
  | Some v => Z.abs v
  | None => 0
  end.

(** Every entry of the cache has a max float that is not nil. *)
Definition noNilEntry (st : state) : Prop :=
  forall sender e, senders st !! sender = Some e -> is_Some (maxFloat e).

End RedeemerClient.

(** ** Tickets the codec is specified for *)

(** The big-width integers of a ticket are unsigned quantities (they are
    [uint256] on chain): a valid ticket holds no negative one. *)
Definition validTicket (t : pm.SignedTicket) : Prop :=
  0 <= pm.FaceValue (pm.Ticket_ t)
  /\ 0 <= pm.WinProb (pm.Ticket_ t)
  /\ 0 <= pm.ParamsExpirationBlock (pm.Ticket_ t).

(** [a.Big()]: an address read as an unsigned big-endian integer. *)
Definition addressAsInteger (a : Address) : Z := big.SetBytes (ethcommon.Bytes a).

(** A sample sender, hash and ticket, used to exercise the statements. *)
Definition sampleAddress : Address := BytesToAddress (big.Bytes 258).
Definition otherAddress : Address := BytesToAddress (big.Bytes 77).
Definition sampleHash : Hash := BytesToHash (big.Bytes 4660).

Definition sampleTicket : pm.SignedTicket :=
  {| pm.Ticket_ :=
       {| pm.Recipient := sampleAddress;
          pm.Sender := otherAddress;
          pm.FaceValue := 1000;
          pm.WinProb := 2 ^ 255;
          pm.SenderNonce := 3;
          pm.RecipientRandHash := sampleHash;
          pm.CreationRound := 5;
          pm.CreationRoundBlockHash := sampleHash;
          pm.ParamsExpirationBlock := 100 |};
     pm.RecipientRand := 42;
     pm.Sig := big.Bytes 65537 |}.

(** What the sample ticket decodes to after a passage over the wire. *)
Definition sampleDecoded : pm.SignedTicket :=
  {| pm.Ticket_ := pm.Ticket_ sampleTicket;
     pm.RecipientRand := 258;
     pm.Sig := pm.Sig sampleTicket |}.

(** A Float Authority that accepts every ticket. *)
Definition accept : pm.SignedTicket -> option error := fun _ => None.

(** A client that holds 500 for the sample address, last touched at time 0,
    and a relay that answers 300 for every sender. *)
Definition sampleCache : RedeemerClient.state :=
  {| RedeemerClient.senders :=
       {[ sampleAddress := {| RedeemerClient.maxFloat := Some 500;
                              RedeemerClient.lastAccess := 0 |} ]};
     RedeemerClient.mu := false;
     RedeemerClient.effects := [] |}.

Definition sampleRelay (req : net.MaxFloatReq) : result net.MaxFloatUpdate :=
  ok {| net.upd_Sender := net.req_Sender req; net.MaxFloat := big.Bytes 300 |}.

(** The address of a subscribing peer. *)
Definition samplePeer : string := "10.0.0.7:41000".

(** A byte string without its leading zero bytes. *)
Fixpoint trimZeros (b : list byte) : list byte :=
  match b with
  | [] => []
  | x :: rest => if decide (x = "000"%byte) then trimZeros rest else b
  end.

(** A relay with the sample peer registered on channel 0. *)
Definition oneSubscriber : Redeemer.state :=
  {| Redeemer.subs := {[ samplePeer := 0%nat ]};
     Redeemer.liveSenders := ∅;
     Redeemer.goroutines := [];
     Redeemer.subscriptions := [];
     Redeemer.nextChan := 1%nat |}.

(** * Properties *)

(** ** Big-endian integers *)

Section BigEndian.

Lemma unsigned_of_Z_mod (z : Z) : byte.unsigned (byte.of_Z z) = z mod 256.
Proof. rewrite byte.unsigned_of_Z. reflexivity. Qed.

Lemma bigEndian_S (k : nat) (n : Z) :
  big.bigEndian (S k) n
  = byte.of_Z (Z.shiftr n (8 * Z.of_nat k)) :: big.bigEndian k n.
Proof.
  unfold big.bigEndian. rewrite seq_S, rev_app_distr. reflexivity.
Qed.

(** Reading back the [k] low bytes of [n] behind an accumulator. *)
Lemma fold_bigEndian (k : nat) (n acc : Z) :
  fold_left (fun a b => a * 256 + byte.unsigned b) (big.bigEndian k n) acc
  = acc * 256 ^ Z.of_nat k + n mod 256 ^ Z.of_nat k.
Proof.
  revert acc. induction k as [|k IH]; intros acc.
  - simpl. rewrite Z.mod_1_r. lia.
  - rewrite bigEndian_S. simpl fold_left. rewrite IH, unsigned_of_Z_mod.
    rewrite Z.shiftr_div_pow2 by lia.
    replace (2 ^ (8 * Z.of_nat k)) with (256 ^ Z.of_nat k)
      by (rewrite Z.pow_mul_r by lia; reflexivity).
    rewrite Nat2Z.inj_succ, Z.pow_succ_r by lia.
    rewrite (Z.mul_comm 256 (256 ^ Z.of_nat k)).
    rewrite Z.rem_mul_r by lia. lia.
Qed.

(** [byteLen n] bytes are enough for [n]. *)
Lemma byteLen_bound (n : Z) : 0 <= n -> n < 256 ^ Z.of_nat (big.byteLen n).
Proof.
  intros Hn. unfold big.byteLen. destruct (Z.eqb_spec n 0) as [->|Hne]; [reflexivity|].
  assert (Hpos : 0 < n) by lia.
  pose proof (Z.log2_nonneg n) as Hl.
  destruct (Z.log2_spec n Hpos) as [_ Hlt].
  rewrite Nat2Z.inj_succ, Z2Nat.id by (apply Z.div_pos; lia).
  replace 256 with (2 ^ 8) by reflexivity.
  rewrite <- Z.pow_mul_r by (try apply Z.le_le_succ_r; try apply Z.div_pos; lia).
  eapply Z.lt_le_trans; [exact Hlt|].
  apply Z.pow_le_mono_r; [lia|].
  pose proof (Z.mod_pos_bound (Z.log2 n) 8 ltac:(lia)).
  pose proof (Z.div_mod (Z.log2 n) 8 ltac:(lia)). lia.
Qed.

(** [SetBytes] after [Bytes] gives the magnitude back. *)
Lemma SetBytes_Bytes (x : Z) : big.SetBytes (big.Bytes x) = Z.abs x.
Proof.
  unfold big.SetBytes, big.Bytes. rewrite fold_bigEndian.
  rewrite Z.mod_small; [lia|].
  split; [lia|]. apply byteLen_bound. lia.
Qed.

Lemma SetBytes_Bytes_nonneg (x : Z) : 0 <= x -> big.SetBytes (big.Bytes x) = x.
Proof. intros Hx. rewrite SetBytes_Bytes. lia. Qed.

End BigEndian.

(** ** Wire codec *)

(** C1. For every valid signed ticket [t], [pmTicket (protoTicket t)]
    returns a ticket with the sender, recipient, face value, win
    probability, sender nonce, recipient-rand hash, creation round,
    creation-round block hash, expiration block and signature of [t], and
    whose [RecipientRand] is the recipient address of [t] read as an
    integer (not the [RecipientRand] of [t]). *)
Theorem pmTicket_protoTicket (t : pm.SignedTicket) :
  validTicket t ->
  pmTicket (protoTicket t)
  = Returns {| pm.Ticket_ := pm.Ticket_ t;
               pm.RecipientRand := addressAsInteger (pm.Recipient (pm.Ticket_ t));
               pm.Sig := pm.Sig t |}.
Proof.
  destruct t as [[rcp snd fv wp nonce rrh cr crbh peb] rr sig].
  unfold validTicket; simpl. intros (Hfv & Hwp & Hpeb).
  unfold pmTicket, protoTicket, BytesToAddress, BytesToHash, addressAsInteger; simpl.
  rewrite !BytesToFixed_Bytes, !SetBytes_Bytes_nonneg by assumption.
  reflexivity.
Qed.

(** The sample ticket is valid; its round trip keeps every field of the
    inner ticket and the signature, and turns its [RecipientRand], 42, into
    258, its recipient address read as an integer. *)
Lemma pmTicket_protoTicket_witness :
  validTicket sampleTicket
  /\ pmTicket (protoTicket sampleTicket)
     = Returns {| pm.Ticket_ := pm.Ticket_ sampleTicket;
                  pm.RecipientRand := addressAsInteger sampleAddress;
                  pm.Sig := pm.Sig sampleTicket |}
  /\ addressAsInteger sampleAddress = 258
  /\ pm.RecipientRand sampleTicket = 42.
Proof.
  assert (Hv : validTicket sampleTicket) by (unfold validTicket; simpl; lia).
  split; [exact Hv|].
  split; [exact (pmTicket_protoTicket sampleTicket Hv)|].
  split; [vm_compute; reflexivity | reflexivity].
Defined.

(** ** [ValidateSender] *)

Section Int64.

(** Within 64 bits of magnitude, [Int64] is zero only at zero. *)
Lemma Int64_zero_iff (x : Z) : Z.abs x < 2 ^ 64 -> (big.Int64 x = 0 <-> x = 0).
Proof.
  unfold big.Int64, big.int64, big.low64.
  change (2 ^ 64) with 18446744073709551616.
  change (2 ^ 63) with 9223372036854775808.
  intros Hx. destruct (Z.ltb_spec x 0); Z.div_mod_to_equations; lia.
Qed.

Lemma Cmp_gt (x y : Z) : (big.Cmp x y =? 1) = bool_decide (x > y).
Proof.
  unfold big.Cmp. destruct (Z.compare_spec x y); simpl;
    symmetry; [apply bool_decide_eq_false|apply bool_decide_eq_false|apply bool_decide_eq_true]; lia.
Qed.

End Int64.

Section ValidateSender.

Import RedeemerClient.

Variable GetSenderInfo : Address -> result pm.SenderInfo.
Variable LastInitializedRound : Z.
Variable Hex : Address -> string.

(** C2, amended. When the sender-info source returns a withdraw round of
    magnitude below 2^64, [ValidateSender] returns an error if and only if
    that round is non-zero and not strictly greater than
    [LastInitializedRound + 1]; when [GetSenderInfo] fails with [err],
    [ValidateSender] returns the error
    ["could not get sender info for <sender>: <err>"]. *)
Theorem ValidateSender_spec (sender : Address) :
  (forall info,
     GetSenderInfo sender = ok info ->
     Z.abs (pm.WithdrawRound info) < 2 ^ 64 ->
     (is_Some (ValidateSender GetSenderInfo LastInitializedRound Hex sender)
      <-> pm.WithdrawRound info <> 0
          /\ ~ pm.WithdrawRound info > LastInitializedRound + 1))
  /\ (forall err,
        GetSenderInfo sender = failed err ->
        ValidateSender GetSenderInfo LastInitializedRound Hex sender
        = Some (String.append "could not get sender info for "
                 (String.append (Hex sender) (String.append ": " err)))).
Proof.
  split.
  - intros info Hinfo Hrange. unfold ValidateSender. rewrite Hinfo, Cmp_gt.
    pose proof (Int64_zero_iff _ Hrange) as Hz.
    destruct (Z.eqb_spec (big.Int64 (pm.WithdrawRound info)) 0) as [E|E];
      case_bool_decide; simpl; split;
      try (intros [? ?]; discriminate);
      try (intros [? ?]; tauto); eauto.
  - intros err Herr. unfold ValidateSender. rewrite Herr. reflexivity.
Qed.

End ValidateSender.

(** Withdraw round 7 with last initialized round 10: an error; a failing
    sender-info source: its error, wrapped. *)
Lemma ValidateSender_spec_witness :
  is_Some (RedeemerClient.ValidateSender
             (fun _ => ok {| pm.WithdrawRound := 7 |}) 10 (fun _ => "0x"%string) sampleAddress)
  /\ RedeemerClient.ValidateSender
       (fun _ => failed "no such sender"%string) 10 (fun _ => "0x"%string) sampleAddress
     = Some "could not get sender info for 0x: no such sender"%string.
Proof.
  split.
  - apply (proj1 (ValidateSender_spec (fun _ => ok {| pm.WithdrawRound := 7 |}) 10
                    (fun _ => "0x"%string) sampleAddress) {| pm.WithdrawRound := 7 |}).
    + reflexivity.
    + simpl. lia.
    + simpl. lia.
  - apply (proj2 (ValidateSender_spec (fun _ => failed "no such sender"%string) 10
                    (fun _ => "0x"%string) sampleAddress)).
    reflexivity.
Defined.

(** C2 as stated fails: a withdraw round of 2^64 is non-zero and not greater
    than 2^64 + 1, yet [ValidateSender] returns no error, because [Int64]
    keeps the 64 low bits only. *)
Lemma ValidateSender_wide_round :
  let info := {| pm.WithdrawRound := 2 ^ 64 |} in
  RedeemerClient.ValidateSender
    (fun _ => ok info) (2 ^ 64) (fun _ => "0x"%string) sampleAddress = None
  /\ pm.WithdrawRound info <> 0
  /\ ~ pm.WithdrawRound info > 2 ^ 64 + 1.
Proof.
  split; [vm_compute; reflexivity|]. simpl. split; lia.
Qed.

(** ** The proxy's [MaxFloat] *)

Section ClientMaxFloat.

Import RedeemerClient.

Variable rpc_MaxFloat : net.MaxFloatReq -> result net.MaxFloatUpdate.

Lemma rpcCalls_app (st : state) (es : list effect) :
  omap (fun e => match e with eff_rpcMaxFloat req => Some req | _ => None end)
       (effects st ++ es)
  = rpcCalls st
    ++ omap (fun e => match e with eff_rpcMaxFloat req => Some req | _ => None end) es.
Proof. unfold rpcCalls. apply omap_app. Qed.

(** The hit path: lock, refresh, return; no unlock. *)
Lemma MaxFloat_hit (sender : Address) (now : Time) (st : state) (v : Z) :
  mu st = false ->
  cached sender st = Some v ->
  MaxFloat rpc_MaxFloat sender now st
  = (Returns (ok v),
     set_senders (insert sender {| maxFloat := Some v; lastAccess := now |}) (Lock st)).
Proof.
  unfold cached, MaxFloat. intros -> Hc. simpl.
  destruct (senders st !! sender) as [[[w|] la]|]; simpl in Hc; try discriminate.
  injection Hc as ->. reflexivity.
Qed.

(** The miss path: lock, unlock, query. *)
Lemma MaxFloat_miss (sender : Address) (now : Time) (st : state) :
  mu st = false ->
  cached sender st = None ->
  let req := {| net.req_Sender := ethcommon.Bytes sender |} in
  MaxFloat rpc_MaxFloat sender now st
  = (Returns (decoded (rpc_MaxFloat req)),
     emit (eff_rpcMaxFloat req) (Unlock (Lock st))).
Proof.
  unfold cached, MaxFloat. intros -> Hc. simpl.
  destruct (senders st !! sender) as [[[w|] la]|]; simpl in Hc; try discriminate;
    destruct (rpc_MaxFloat _); reflexivity.
Qed.

(** X20. When [MaxFloat] is called with the mutex free: if the cache holds a
    (non-nil) max float for the sender, the call returns it, sets the
    entry's last access to the current time and makes no call to the relay;
    if it holds none (no entry, or an entry with a nil value), the call
    makes one [MaxFloat] query to the relay, returns the decoded answer (or
    the query's error), and leaves the cache map as it was. *)
Theorem MaxFloat_cache (sender : Address) (now : Time) (st : state) :
  mu st = false ->
  let req := {| net.req_Sender := ethcommon.Bytes sender |} in
  let call := MaxFloat rpc_MaxFloat sender now st in
  match cached sender st with
  | Some v =>
    call.1 = Returns (ok v)
    /\ senders call.2
       = <[sender := {| maxFloat := Some v; lastAccess := now |}]> (senders st)
    /\ rpcCalls call.2 = rpcCalls st
  | None =>
    call.1 = Returns (decoded (rpc_MaxFloat req))
    /\ senders call.2 = senders st
    /\ rpcCalls call.2 = rpcCalls st ++ [req]
  end.
Proof.
  intros Hmu req call. subst call.
  destruct (cached sender st) as [v|] eqn:Hc.
  - rewrite (MaxFloat_hit _ _ _ _ Hmu Hc). cbn [fst snd].
    repeat split. unfold rpcCalls at 1. cbn [set_senders Lock emit effects].
    rewrite rpcCalls_app. apply app_nil_r.
  - rewrite (MaxFloat_miss _ _ _ Hmu Hc). cbn [fst snd].
    repeat split. unfold rpcCalls at 1. cbn [Unlock Lock emit effects].
    rewrite <- !app_assoc, rpcCalls_app. reflexivity.
Qed.

(** C4. When [MaxFloat] is called with the mutex free: on the hit path the
    call acquires the mutex and returns with it held (its only effect is the
    [Lock]); on the miss path it acquires the mutex, releases it, and only
    then queries the relay, so that it returns with the mutex free. The
    mutex is free after the call exactly on the miss path. *)
Theorem MaxFloat_mutex (sender : Address) (now : Time) (st : state) :
  mu st = false ->
  let req := {| net.req_Sender := ethcommon.Bytes sender |} in
  let st' := (MaxFloat rpc_MaxFloat sender now st).2 in
  match cached sender st with
  | Some _ => mu st' = true /\ effects st' = effects st ++ [eff_Lock]
  | None =>
    mu st' = false
    /\ effects st' = effects st ++ [eff_Lock; eff_Unlock; eff_rpcMaxFloat req]
  end.
Proof.
  intros Hmu req st'. subst st'.
  destruct (cached sender st) as [v|] eqn:Hc.
  - rewrite (MaxFloat_hit _ _ _ _ Hmu Hc). simpl. split; reflexivity.
  - rewrite (MaxFloat_miss _ _ _ Hmu Hc). simpl. split; [reflexivity|].
    rewrite <- !app_assoc. reflexivity.
Qed.

(** X3. After a hit (with the mutex free at the call) the mutex stays
    held, so the next call, for whatever sender, waits in [Lock]. *)
Lemma MaxFloat_after_hit_blocks (sender sender' : Address) (now now' : Time)
    (st : state) (v : Z) :
  mu st = false ->
  cached sender st = Some v ->
  (MaxFloat rpc_MaxFloat sender' now' (MaxFloat rpc_MaxFloat sender now st).2).1 = Blocks.
Proof.
  intros Hmu Hc. rewrite (MaxFloat_hit _ _ _ _ Hmu Hc). reflexivity.
Qed.

(** C3, on the code. A sender with a cached max float, the mutex free: the
    first [MaxFloat] returns the cached value, as the claim says, and the
    value stays cached, but the call leaves the mutex held (the hit path
    has no [Unlock]); so the second [MaxFloat] for that same sender, whose
    value is still present in the cache, waits in [Lock] for ever: it
    returns no value, refreshes nothing and changes nothing. *)
Theorem MaxFloat_cached_then_blocked (sender : Address) (v : Z) (now now' : Time)
    (st : state) :
  mu st = false ->
  cached sender st = Some v ->
  let first := MaxFloat rpc_MaxFloat sender now st in
  let second := MaxFloat rpc_MaxFloat sender now' first.2 in
  first.1 = Returns (ok v)
  /\ cached sender first.2 = Some v
  /\ second.1 = Blocks
  /\ second.2 = first.2.
Proof.
  intros Hmu Hc first second. subst second first.
  rewrite (MaxFloat_hit sender now st v Hmu Hc). cbn [fst snd].
  split; [reflexivity|]. split.
  - unfold cached. cbn [set_senders Lock emit senders].
    rewrite lookup_insert_eq. reflexivity.
  - split; reflexivity.
Qed.

End ClientMaxFloat.

Lemma sampleCache_hit : RedeemerClient.cached sampleAddress sampleCache = Some 500.
Proof. vm_compute. reflexivity. Qed.

Lemma sampleCache_miss : RedeemerClient.cached otherAddress sampleCache = None.
Proof. vm_compute. reflexivity. Qed.

(** On the sample cache, two calls for the sample address: 500, then
    blocked with 500 still cached. *)
Lemma MaxFloat_cached_then_blocked_witness :
  let first := RedeemerClient.MaxFloat sampleRelay sampleAddress 9 sampleCache in
  let second := RedeemerClient.MaxFloat sampleRelay sampleAddress 10 first.2 in
  RedeemerClient.mu sampleCache = false
  /\ first.1 = Returns (ok 500)
  /\ RedeemerClient.cached sampleAddress first.2 = Some 500
  /\ second.1 = Blocks.
Proof.
  pose proof (MaxFloat_cached_then_blocked sampleRelay sampleAddress 500 9 10 sampleCache
                eq_refl sampleCache_hit) as (H1 & H2 & H3 & _).
  split; [reflexivity|]. split; [exact H1|]. split; [exact H2|exact H3].
Defined.

(** On the sample cache: the sample address is a hit (500, no query), the
    other address a miss (300 from the relay, cache map unchanged). *)
Lemma MaxFloat_cache_witness :
  RedeemerClient.mu sampleCache = false
  /\ (RedeemerClient.MaxFloat sampleRelay sampleAddress 9 sampleCache).1 = Returns (ok 500)
  /\ RedeemerClient.rpcCalls
       (RedeemerClient.MaxFloat sampleRelay sampleAddress 9 sampleCache).2 = []
  /\ (RedeemerClient.MaxFloat sampleRelay otherAddress 9 sampleCache).1 = Returns (ok 300)
  /\ RedeemerClient.senders
       (RedeemerClient.MaxFloat sampleRelay otherAddress 9 sampleCache).2
     = RedeemerClient.senders sampleCache.
Proof.
  split; [reflexivity|].
  pose proof (MaxFloat_cache sampleRelay sampleAddress 9 sampleCache eq_refl) as Hhit.
  pose proof (MaxFloat_cache sampleRelay otherAddress 9 sampleCache eq_refl) as Hmiss.
  cbv zeta in Hhit, Hmiss. rewrite sampleCache_hit in Hhit. rewrite sampleCache_miss in Hmiss.
  destruct Hhit as (Hr & _ & Hc). destruct Hmiss as (Hr' & Hs' & _).
  split; [exact Hr|]. split; [exact Hc|]. split; [exact Hr'|exact Hs'].
Defined.

(** On the sample cache: after the hit the mutex is held, after the miss
    it is free. *)
Lemma MaxFloat_mutex_witness :
  RedeemerClient.mu sampleCache = false
  /\ RedeemerClient.mu (RedeemerClient.MaxFloat sampleRelay sampleAddress 9 sampleCache).2 = true
  /\ RedeemerClient.mu (RedeemerClient.MaxFloat sampleRelay otherAddress 9 sampleCache).2 = false.
Proof.
  split; [reflexivity|].
  pose proof (MaxFloat_mutex sampleRelay sampleAddress 9 sampleCache eq_refl) as Hhit.
  pose proof (MaxFloat_mutex sampleRelay otherAddress 9 sampleCache eq_refl) as Hmiss.
  cbv zeta in Hhit, Hmiss. rewrite sampleCache_hit in Hhit. rewrite sampleCache_miss in Hmiss.
  split; [exact (proj1 Hhit)|exact (proj1 Hmiss)].
Defined.

(** On the sample cache, a hit for the sample address, then a call for the
    other address: the second call blocks. *)
Lemma MaxFloat_after_hit_blocks_witness :
  (RedeemerClient.MaxFloat sampleRelay otherAddress 10
     (RedeemerClient.MaxFloat sampleRelay sampleAddress 9 sampleCache).2).1 = Blocks.
Proof.
  exact (MaxFloat_after_hit_blocks sampleRelay sampleAddress otherAddress 9 10
           sampleCache 500 eq_refl sampleCache_hit).
Defined.

(** ** The relay's [QueueTicket] *)

Section RelayQueueTicket.

Import Redeemer.

Variable sm_QueueTicket : pm.SignedTicket -> option error.

(** C5. For a ticket the relay decodes to [t]: when the Float Authority
    rejects [t] with error [e], [QueueTicket] returns no acknowledgement and
    a status error of code [Internal] whose message is [e] (and starts no
    monitor); when it accepts [t], [QueueTicket] returns an empty
    acknowledgement and a nil error (and starts [monitorMaxFloat] for the
    sender). *)
Theorem QueueTicket_result (ticket : net.Ticket) (t : pm.SignedTicket) (st : state) :
  pmTicket ticket = Returns t ->
  match sm_QueueTicket t with
  | Some e =>
    QueueTicket sm_QueueTicket ticket st
    = (Returns (None, Some {| status.Code := codes.Internal; status.Message := e |}), st)
  | None =>
    QueueTicket sm_QueueTicket ticket st
    = (Returns (Some net.Build_QueueTicketRes, None),
       spawn (mmf_entry (BytesToAddress (net.Sender ticket))) st)
  end.
Proof.
  intros Ht. unfold QueueTicket. rewrite Ht.
  destruct (sm_QueueTicket t); reflexivity.
Qed.

End RelayQueueTicket.

Lemma sampleTicket_decodes : pmTicket (protoTicket sampleTicket) = Returns sampleDecoded.
Proof. vm_compute. reflexivity. Qed.

(** The sample ticket, rejected and accepted. *)
Lemma QueueTicket_result_witness :
  Redeemer.QueueTicket (fun _ => Some "ticket already used"%string)
    (protoTicket sampleTicket) Redeemer.initial
  = (Returns (None, Some {| status.Code := codes.Internal;
                            status.Message := "ticket already used" |}),
     Redeemer.initial)
  /\ Redeemer.QueueTicket accept (protoTicket sampleTicket) Redeemer.initial
     = (Returns (Some net.Build_QueueTicketRes, None),
        Redeemer.spawn (Redeemer.mmf_entry otherAddress) Redeemer.initial).
Proof.
  split.
  - exact (QueueTicket_result (fun _ => Some "ticket already used"%string) _ _
             Redeemer.initial sampleTicket_decodes).
  - exact (QueueTicket_result accept _ _ Redeemer.initial sampleTicket_decodes).
Defined.

(** ** Monitors per sender *)

Section RelayMonitors.

Import Redeemer.

Lemma insert_last (gs : list goroutine) (g g' : goroutine) :
  <[length gs := g']> (gs ++ [g]) = gs ++ [g'].
Proof.
  rewrite insert_app_r_alt by lia. rewrite Nat.sub_diag. reflexivity.
Qed.

Lemma lookup_last (gs : list goroutine) (g : goroutine) :
  (gs ++ [g]) !! length gs = Some g.
Proof. apply list_lookup_middle. reflexivity. Qed.

Lemma monitors_snoc (sender : Address) (st : state) (gs : list goroutine) (g : goroutine) :
  goroutines st = gs ++ [g] ->
  monitors sender st
  = (length (filter (fun g => g = mmf_select sender) gs)
     + if decide (g = mmf_select sender) then 1 else 0)%nat.
Proof.
  intros Hg. unfold monitors. rewrite Hg, filter_app, length_app. f_equal.
  rewrite filter_cons, filter_nil. destruct (decide _); reflexivity.
Qed.

(** A goroutine that runs [monitorMaxFloat] alone from its start: it
    refreshes the entry and returns when the entry is there, and stores the
    entry and subscribes when it is not. *)
Lemma settle_last (sender : Address) (now : Time) (st : state) (gs : list goroutine) :
  goroutines st = gs ++ [mmf_entry sender] ->
  settle (length gs) now st
  = match liveSenders st !! sender with
    | Some _ =>
      {| subs := subs st; liveSenders := <[sender := now]> (liveSenders st);
         goroutines := gs ++ [mmf_returned]; subscriptions := subscriptions st;
         nextChan := nextChan st |}
    | None =>
      {| subs := subs st; liveSenders := <[sender := now]> (liveSenders st);
         goroutines := gs ++ [mmf_select sender];
         subscriptions := subscriptions st ++ [sender];
         nextChan := nextChan st |}
    end.
Proof.
  intros Hg. unfold settle, run. cbn [foldl].
  unfold step at 3. rewrite Hg, lookup_last. cbn [monitorMaxFloat_step].
  unfold set_goroutines at 1. cbn [goroutines subs liveSenders subscriptions nextChan].
  rewrite Hg, insert_last.
  unfold step at 2. cbn [goroutines]. rewrite lookup_last.
  destruct (liveSenders st !! sender) as [t|] eqn:Hl.
  - rewrite bool_decide_eq_true_2 by eauto. cbn [monitorMaxFloat_step].
    unfold set_goroutines, set_liveSenders.
    cbn [goroutines subs liveSenders subscriptions nextChan].
    rewrite insert_last. unfold step. cbn [goroutines]. rewrite lookup_last.
    cbn [monitorMaxFloat_step]. unfold set_goroutines.
    cbn [goroutines subs liveSenders subscriptions nextChan].
    rewrite insert_last. reflexivity.
  - rewrite bool_decide_eq_false_2 by (intros [? ?]; discriminate).
    cbn [monitorMaxFloat_step].
    unfold set_goroutines, set_liveSenders.
    cbn [goroutines subs liveSenders subscriptions nextChan].
    rewrite insert_last. unfold step. cbn [goroutines]. rewrite lookup_last.
    cbn [monitorMaxFloat_step]. unfold set_goroutines, set_subscriptions.
    cbn [goroutines subs liveSenders subscriptions nextChan].
    rewrite insert_last. reflexivity.
Qed.

Variable sm_QueueTicket : pm.SignedTicket -> option error.

Lemma queueThenSettle_accepted (ticket : net.Ticket) (t : pm.SignedTicket)
    (st : state) (now : Time) :
  pmTicket ticket = Returns t ->
  sm_QueueTicket t = None ->
  let sender := BytesToAddress (net.Sender ticket) in
  let st' := queueThenSettle sm_QueueTicket ticket st now in
  liveSenders st' !! sender = Some now
  /\ match liveSenders st !! sender with
     | Some _ =>
       monitors sender st' = monitors sender st
       /\ subscriptions st' = subscriptions st
     | None =>
       monitors sender st' = S (monitors sender st)
       /\ subscriptions st' = subscriptions st ++ [sender]
     end.
Proof.
  intros Ht Hsm sender st'. subst st'. unfold queueThenSettle, QueueTicket.
  rewrite Ht, Hsm. cbn [snd]. fold sender.
  rewrite (settle_last sender now (spawn (mmf_entry sender) st) (goroutines st) eq_refl).
  cbn [spawn set_goroutines liveSenders].
  destruct (liveSenders st !! sender) as [t0|] eqn:Hl.
  - split; [apply lookup_insert_eq|]. split; [|reflexivity].
    erewrite monitors_snoc by reflexivity.
    rewrite decide_False by discriminate. unfold monitors. lia.
  - split; [apply lookup_insert_eq|]. split; [|reflexivity].
    erewrite monitors_snoc by reflexivity.
    rewrite decide_True by reflexivity. unfold monitors. lia.
Qed.

(** X1. When every goroutine finishes the start of [monitorMaxFloat] before
    the next ticket is queued, and no sweep runs in between, any number of
    accepted tickets of one sender leaves exactly one monitor, subscribed
    once. *)
Lemma sequentially_one_monitor (ticket : net.Ticket) (t : pm.SignedTicket)
    (times : list Time) :
  pmTicket ticket = Returns t ->
  sm_QueueTicket t = None ->
  times <> [] ->
  let sender := BytesToAddress (net.Sender ticket) in
  let st := sequentially sm_QueueTicket ticket times initial in
  monitors sender st = 1%nat /\ subscriptions st = [sender].
Proof.
  intros Ht Hsm Hne sender st. subst st.
  destruct times as [|now0 times]; [congruence|]. clear Hne.
  unfold sequentially. cbn [foldl].
  pose proof (queueThenSettle_accepted ticket t initial now0 Ht Hsm) as H0.
  cbv zeta in H0. fold sender in H0.
  assert (Hempty : liveSenders initial !! sender = None) by apply lookup_empty.
  rewrite Hempty in H0. destruct H0 as (Hl0 & Hm0 & Hs0).
  change (monitors sender initial) with 0%nat in Hm0.
  change (subscriptions initial ++ [sender]) with [sender] in Hs0.
  assert (Hinv : is_Some (liveSenders (queueThenSettle sm_QueueTicket ticket initial now0)
                            !! sender)) by eauto.
  clear Hl0 Hempty. revert Hinv Hm0 Hs0.
  generalize (queueThenSettle sm_QueueTicket ticket initial now0).
  induction times as [|now times IH]; intros st [t0 Hl] Hm Hs.
  - cbn [foldl]. split; [exact Hm|exact Hs].
  - cbn [foldl].
    pose proof (queueThenSettle_accepted ticket t st now Ht Hsm) as H.
    cbv zeta in H. fold sender in H. rewrite Hl in H. destruct H as (Hl' & Hm' & Hs').
    apply IH; [eauto|congruence|congruence].
Qed.

End RelayMonitors.

Section RelayRace.

Import Redeemer.

Lemma monitorMaxFloat_step_goroutines (now : Time) (g : goroutine) (st : state) :
  goroutines (monitorMaxFloat_step now g st).2 = goroutines st.
Proof. destruct g as [s|s [|]|s|s|]; reflexivity. Qed.

(** A step of the goroutine at position [k] behind the goroutines [gs]. *)
Lemma step_behind (gs l : list goroutine) (k : nat) (g : goroutine) (now : Time)
    (st : state) (i : nat) :
  goroutines st = gs ++ l ->
  i = (length gs + k)%nat ->
  l !! k = Some g ->
  step i now st
  = let st' := (monitorMaxFloat_step now g st).2 in
    {| subs := subs st'; liveSenders := liveSenders st';
       goroutines := gs ++ <[k := (monitorMaxFloat_step now g st).1]> l;
       subscriptions := subscriptions st'; nextChan := nextChan st' |}.
Proof.
  intros Hg -> Hk. unfold step. rewrite Hg, lookup_app_r by lia.
  replace (length gs + k - length gs)%nat with k by lia. rewrite Hk.
  destruct (monitorMaxFloat_step now g st) as [g' st'] eqn:Hstep.
  pose proof (monitorMaxFloat_step_goroutines now g st) as Hsame.
  rewrite Hstep in Hsame. cbn [fst snd] in *.
  unfold set_goroutines. cbv zeta. rewrite Hsame, Hg.
  rewrite insert_app_r_alt by lia.
  replace (length gs + k - length gs)%nat with k by lia. reflexivity.
Qed.

Variable sm_QueueTicket : pm.SignedTicket -> option error.

(** C6, at the failing schedule. Two accepted tickets of a sender without
    liveness entry start two goroutines; when both run [Load] before either
    runs [Store], both find no entry, both store and both subscribe: the
    sender has two monitors more than before, not one. *)
Theorem QueueTicket_interleaved (ticket : net.Ticket) (t : pm.SignedTicket) (st : state) :
  pmTicket ticket = Returns t ->
  sm_QueueTicket t = None ->
  let sender := BytesToAddress (net.Sender ticket) in
  liveSenders st !! sender = None ->
  let queued := (QueueTicket sm_QueueTicket ticket
                   (QueueTicket sm_QueueTicket ticket st).2).2 in
  let st' := run (interleaving (length (goroutines st))) queued in
  monitors sender st' = (2 + monitors sender st)%nat
  /\ subscriptions st' = subscriptions st ++ [sender; sender].
Proof.
  intros Ht Hsm sender Hl queued st'. subst st' queued.
  unfold QueueTicket. rewrite Ht, Hsm. cbn [snd]. fold sender. clearbody sender.
  unfold interleaving, run, spawn, set_goroutines. cbn [foldl goroutines].
  rewrite <- app_assoc. cbn [app].
  set (gs := goroutines st).
  (* first goroutine: Load *)
  rewrite (step_behind gs [mmf_entry sender; mmf_entry sender] 0 (mmf_entry sender) 1);
    [|reflexivity|lia|reflexivity].
  cbv zeta. unfold set_liveSenders, set_subscriptions.
  cbn [monitorMaxFloat_step fst snd liveSenders subs subscriptions nextChan goroutines
       insert list_insert].
  rewrite Hl, bool_decide_eq_false_2 by (intros [? ?]; discriminate).
  (* second goroutine: Load, before the first has stored *)
  rewrite (step_behind gs [mmf_loaded sender false; mmf_entry sender] 1 (mmf_entry sender) 2);
    [|reflexivity|lia|reflexivity].
  cbv zeta. unfold set_liveSenders, set_subscriptions.
  cbn [monitorMaxFloat_step fst snd liveSenders subs subscriptions nextChan goroutines
       insert list_insert].
  rewrite Hl, bool_decide_eq_false_2 by (intros [? ?]; discriminate).
  (* both store, both subscribe *)
  rewrite (step_behind gs [mmf_loaded sender false; mmf_loaded sender false] 0
             (mmf_loaded sender false) 3); [|reflexivity|lia|reflexivity].
  cbv zeta. unfold set_liveSenders, set_subscriptions.
  cbn [monitorMaxFloat_step fst snd liveSenders subs subscriptions nextChan goroutines
       insert list_insert].
  rewrite (step_behind gs [mmf_stored sender; mmf_loaded sender false] 1
             (mmf_loaded sender false) 4); [|reflexivity|lia|reflexivity].
  cbv zeta. unfold set_liveSenders, set_subscriptions.
  cbn [monitorMaxFloat_step fst snd liveSenders subs subscriptions nextChan goroutines
       insert list_insert].
  rewrite (step_behind gs [mmf_stored sender; mmf_stored sender] 0
             (mmf_stored sender) 5); [|reflexivity|lia|reflexivity].
  cbv zeta. unfold set_liveSenders, set_subscriptions.
  cbn [monitorMaxFloat_step fst snd liveSenders subs subscriptions nextChan goroutines
       insert list_insert].
  rewrite (step_behind gs [mmf_select sender; mmf_stored sender] 1
             (mmf_stored sender) 6); [|reflexivity|lia|reflexivity].
  cbv zeta. unfold set_liveSenders, set_subscriptions.
  cbn [monitorMaxFloat_step fst snd liveSenders subs subscriptions nextChan goroutines
       insert list_insert].
  split.
  - unfold monitors. cbn [goroutines]. rewrite filter_app, length_app.
    rewrite !filter_cons, filter_nil.
    rewrite !decide_True by reflexivity. cbn [length]. fold gs. lia.
  - unfold set_subscriptions. cbn [subscriptions]. rewrite <- app_assoc. reflexivity.
Qed.

End RelayRace.

(** From the fresh relay, with the sample ticket queued twice: two
    monitors for its sender, two subscriptions. *)
Lemma QueueTicket_interleaved_witness :
  let queued := (Redeemer.QueueTicket accept (protoTicket sampleTicket)
                   (Redeemer.QueueTicket accept (protoTicket sampleTicket)
                      Redeemer.initial).2).2 in
  let st' := Redeemer.run (Redeemer.interleaving 0) queued in
  Redeemer.monitors otherAddress st' = 2%nat
  /\ Redeemer.subscriptions st' = [otherAddress; otherAddress].
Proof.
  exact (QueueTicket_interleaved accept (protoTicket sampleTicket) sampleDecoded
           Redeemer.initial sampleTicket_decodes eq_refl eq_refl).
Defined.

(** Three tickets of the sample sender, each goroutine settling before the
    next ticket: one monitor, subscribed once. *)
Lemma sequentially_one_monitor_witness :
  let st := Redeemer.sequentially accept (protoTicket sampleTicket) [1; 2; 3]
              Redeemer.initial in
  Redeemer.monitors otherAddress st = 1%nat
  /\ Redeemer.subscriptions st = [otherAddress].
Proof.
  exact (sequentially_one_monitor accept (protoTicket sampleTicket) sampleDecoded
           [1; 2; 3] sampleTicket_decodes eq_refl ltac:(discriminate)).
Defined.

(** X4. A monitor outlives the liveness entry of its sender: once a sweep has
    evicted the entry, the next ticket of the sender starts a second
    monitor, without any concurrency. *)
Example monitor_outlives_liveness_entry :
  let wire := protoTicket sampleTicket in
  let late := 1 + cleanupLoopTime + 1 in
  let st1 := Redeemer.queueThenSettle accept wire Redeemer.initial 1 in
  let st2 := Redeemer.startCleanupLoop [Redeemer.ev_tick late] st1 in
  let st3 := Redeemer.queueThenSettle accept wire st2 (late + 1) in
  Redeemer.monitors otherAddress st1 = 1%nat
  /\ Redeemer.liveSenders st2 !! otherAddress = None
  /\ Redeemer.monitors otherAddress st3 = 2%nat.
Proof. repeat split; vm_compute; reflexivity. Qed.

(** ** The relay's liveness sweep *)

Section RelaySweep.

Import Redeemer.

(** Folding [sweepEntry] over any list of entries deletes exactly the keys
    that occur with a stale time. *)
Lemma foldl_sweepEntry (now : Time) (l : list (Address * Time))
    (m : gmap Address Time) (k : Address) :
  foldl (sweepEntry now) m l !! k
  = if decide (Exists (fun kv => kv.1 = k /\ expired kv.2 now = true) l)
    then None else m !! k.
Proof.
  revert m. induction l as [|[k' t'] l IH]; intros m.
  - destruct (decide _) as [H|_]; [inversion H|reflexivity].
  - cbn [foldl]. rewrite IH. unfold sweepEntry. cbn [fst snd].
    destruct (decide (Exists _ l)) as [Hl|Hl];
      destruct (decide (Exists _ (_ :: l))) as [Hc|Hc]; try reflexivity.
    + exfalso. apply Hc, Exists_cons_tl, Hl.
    + apply Exists_cons in Hc. destruct Hc as [[Hk He]|Hc]; [|contradiction].
      cbn [fst snd] in Hk, He. subst k'. rewrite He. apply lookup_delete_eq.
    + destruct (expired t' now) eqn:Ht'; [|reflexivity].
      apply lookup_delete_ne. intros ->. apply Hc, Exists_cons_hd. auto.
Qed.

Lemma sweep_lookup (now : Time) (m : gmap Address Time) (sender : Address) :
  sweep now m !! sender
  = match m !! sender with
    | Some lastAccess => if expired lastAccess now then None else Some lastAccess
    | None => None
    end.
Proof.
  unfold sweep. rewrite foldl_sweepEntry.
  destruct (m !! sender) as [t|] eqn:Hm.
  - destruct (expired t now) eqn:Ht.
    + rewrite decide_True; [reflexivity|].
      apply Exists_exists. exists (sender, t). split; [|auto].
      apply elem_of_map_to_list. exact Hm.
    + rewrite decide_False; [reflexivity|].
      intros H. apply Exists_exists in H. destruct H as ([k' t'] & Hin & Hk & He).
      simpl in *. subst k'. apply elem_of_map_to_list in Hin. congruence.
  - destruct (decide _) as [H|H]; [|reflexivity].
    apply Exists_exists in H. destruct H as ([k' t'] & Hin & Hk & He).
    simpl in *. subst k'. apply elem_of_map_to_list in Hin. congruence.
Qed.

(** C7. After one pass of the cleanup loop at time [now], the liveness map
    has, for every sender, no entry when it had none or when the entry's
    last access plus the liveness window is before [now], and the entry it
    had otherwise: what happens to a sender's entry depends on that entry
    alone. *)
Theorem startCleanupLoop_tick (now : Time) (st : state) (sender : Address) :
  liveSenders (startCleanupLoop [ev_tick now] st) !! sender
  = match liveSenders st !! sender with
    | Some lastAccess =>
      if bool_decide (lastAccess + cleanupLoopTime < now) then None else Some lastAccess
    | None => None
    end.
Proof.
  cbn [startCleanupLoop set_liveSenders liveSenders]. apply sweep_lookup.
Qed.

(** An entry untouched for longer than the window is absent after the
    sweep. *)
Lemma sweep_stale (now : Time) (m : gmap Address Time) (sender : Address) (t : Time) :
  m !! sender = Some t -> t + cleanupLoopTime < now -> sweep now m !! sender = None.
Proof.
  intros Hm Ht. rewrite sweep_lookup, Hm. unfold expired.
  rewrite bool_decide_eq_true_2 by exact Ht. reflexivity.
Qed.

(** An entry touched at or before the sweep, within the window, survives
    it. *)
Lemma sweep_recent (now : Time) (m : gmap Address Time) (sender : Address) (t : Time) :
  m !! sender = Some t -> now <= t + cleanupLoopTime -> sweep now m !! sender = Some t.
Proof.
  intros Hm Ht. rewrite sweep_lookup, Hm. unfold expired.
  rewrite bool_decide_eq_false_2 by lia. reflexivity.
Qed.

End RelaySweep.

(** ** The proxy's cleanup *)

Section ClientCleanup.

Import RedeemerClient.

Variable rpc_MaxFloat : net.MaxFloatReq -> result net.MaxFloatUpdate.

Lemma cleared_emit (sender : Address) (e : effect) (st : state) :
  cleared sender (emit e st)
  = (cleared sender st + if decide (e = eff_Clear sender) then 1 else 0)%nat.
Proof.
  unfold cleared, emit; cbn [effects]. rewrite filter_app, length_app.
  f_equal. rewrite filter_cons, filter_nil. destruct (decide _); reflexivity.
Qed.

Lemma keeps_refl (st : state) : keeps st st.
Proof. split; auto. Qed.

Lemma keeps_trans (st1 st2 st3 : state) : keeps st1 st2 -> keeps st2 st3 -> keeps st1 st3.
Proof.
  intros [Hc1 Hs1] [Hc2 Hs2]. split.
  - intros s. rewrite Hc2. apply Hc1.
  - intros s H. apply Hs2, Hs1, H.
Qed.

Lemma keeps_emit (e : effect) (st : state) :
  (forall sender, e <> eff_Clear sender) -> keeps st (emit e st).
Proof.
  intros He. split; [|auto].
  intros s. rewrite cleared_emit, decide_False by apply He. lia.
Qed.

Lemma keeps_Lock (st : state) : keeps st (Lock st).
Proof. split; [|auto]. intros s. unfold Lock. rewrite cleared_emit. simpl. unfold cleared. simpl. lia. Qed.

Lemma keeps_Unlock (st : state) : keeps st (Unlock st).
Proof. split; [|auto]. intros s. unfold Unlock. rewrite cleared_emit. simpl. unfold cleared. simpl. lia. Qed.

Lemma keeps_insert (k : Address) (e : cacheEntry) (st : state) :
  keeps st (set_senders (insert k e) st).
Proof.
  split; [reflexivity|]. intros s H. simpl.
  destruct (decide (k = s)) as [->|Hne].
  - rewrite lookup_insert_eq. eauto.
  - rewrite lookup_insert_ne by exact Hne. exact H.
Qed.

Lemma keeps_MaxFloat (sender : Address) (now : Time) (st : state) :
  keeps st (MaxFloat rpc_MaxFloat sender now st).2.
Proof.
  unfold MaxFloat. destruct (mu st); [apply keeps_refl|].
  destruct (senders (Lock st) !! sender) as [[[v|] la]|]; cbn [snd].
  - eapply keeps_trans; [apply keeps_Lock|apply keeps_insert].
  - destruct (rpc_MaxFloat _); cbn [snd];
      (eapply keeps_trans; [apply keeps_Lock|]);
      (eapply keeps_trans; [apply keeps_Unlock|]);
      apply keeps_emit; discriminate.
  - destruct (rpc_MaxFloat _); cbn [snd];
      (eapply keeps_trans; [apply keeps_Lock|]);
      (eapply keeps_trans; [apply keeps_Unlock|]);
      apply keeps_emit; discriminate.
Qed.

Lemma keeps_receiveUpdate (u : net.MaxFloatUpdate) (now : Time) (st : state) :
  keeps st (receiveUpdate u now st).2.
Proof.
  unfold receiveUpdate. destruct (mu st); [apply keeps_refl|]. cbn [snd].
  eapply keeps_trans; [apply keeps_Lock|].
  eapply keeps_trans; [apply keeps_insert|apply keeps_Unlock].
Qed.

(** Under the loops [Start] launches, no event deletes an entry or calls
    [Clear]. *)
Lemma keeps_react_Start (ev : event) (st : state) :
  keeps st (react rpc_MaxFloat Start ev st).
Proof.
  destruct ev as [u now|e|now|sender now]; unfold react.
  - destruct (decide _); [apply keeps_receiveUpdate|apply keeps_refl].
  - apply keeps_refl.
  - destruct (decide (loop_startCleanupLoop ∈ Start)) as [Hin|_]; [|apply keeps_refl].
    exfalso. unfold Start in Hin. apply list_elem_of_singleton in Hin. discriminate.
  - apply keeps_MaxFloat.
Qed.

Lemma keeps_run_Start (events : list event) (st : state) :
  keeps st (run rpc_MaxFloat Start events st).
Proof.
  revert st. induction events as [|ev events IH]; intros st.
  - apply keeps_refl.
  - cbn [run foldl]. eapply keeps_trans; [apply keeps_react_Start|apply IH].
Qed.

(** C8, on the code. After [Start], whatever happens (updates, receive
    errors, periods of the liveness window elapsing, calls of [MaxFloat]),
    an entry of the cache is never deleted and [Clear] is never called:
    [Start] launches the receive loop only, and the cleanup loop, the only
    code that deletes entries and calls [Clear], is never launched. *)
Theorem Start_never_cleans (events : list event) (st : state)
    (sender : Address) (e : cacheEntry) :
  senders st !! sender = Some e ->
  let st' := run rpc_MaxFloat Start events st in
  is_Some (senders st' !! sender) /\ cleared sender st' = cleared sender st.
Proof.
  intros He st'. subst st'.
  destruct (keeps_run_Start events st) as [Hc Hs].
  split; [apply Hs; eauto|apply Hc].
Qed.

End ClientCleanup.

(** A started client whose entry for the sample address was last touched at
    time 0: when the window has elapsed, the entry is still there and [Clear]
    has not been called. *)
Lemma Start_never_cleans_witness :
  let late := cleanupLoopTime + 1 in
  let st' := RedeemerClient.run sampleRelay RedeemerClient.Start
               [RedeemerClient.ev_period late] sampleCache in
  expired 0 late = true
  /\ is_Some (RedeemerClient.senders st' !! sampleAddress)
  /\ RedeemerClient.cleared sampleAddress st' = 0%nat.
Proof.
  split; [reflexivity|].
  exact (Start_never_cleans sampleRelay [RedeemerClient.ev_period (cleanupLoopTime + 1)]
           sampleCache sampleAddress
           {| RedeemerClient.maxFloat := Some 500; RedeemerClient.lastAccess := 0 |}
           eq_refl).
Defined.

(** Had the cleanup loop been launched as well, the same period would
    have deleted the entry and called [Clear] once. *)
Example cleanup_loop_would_clear :
  let late := cleanupLoopTime + 1 in
  let st' := RedeemerClient.run sampleRelay
               [RedeemerClient.loop_monitorMaxFloat; RedeemerClient.loop_startCleanupLoop]
               [RedeemerClient.ev_period late] sampleCache in
  RedeemerClient.senders st' !! sampleAddress = None
  /\ RedeemerClient.cleared sampleAddress st' = 1%nat.
Proof. split; vm_compute; reflexivity. Qed.

Section ClientSweep.

Import RedeemerClient.

Lemma mu_foldl_sweepEntry (now : Time) (l : list (Address * cacheEntry)) (st : state) :
  mu (foldl (sweepEntry now) st l) = mu st.
Proof.
  revert st. induction l as [|[k e] l IH]; intros st; [reflexivity|].
  cbn [foldl]. rewrite IH. unfold sweepEntry. destruct (expired _ _); reflexivity.
Qed.

(** Over entries with distinct keys, the pass deletes each stale entry and
    calls [Clear] once for it, and does nothing else to the cache. *)
Lemma foldl_client_sweepEntry (now : Time) (l : list (Address * cacheEntry))
    (st : state) (k : Address) :
  NoDup l.*1 ->
  let stale := Exists (fun kv => kv.1 = k /\ expired (lastAccess kv.2) now = true) l in
  senders (foldl (sweepEntry now) st l) !! k
  = (if decide stale then None else senders st !! k)
  /\ cleared k (foldl (sweepEntry now) st l)
     = (cleared k st + if decide stale then 1 else 0)%nat.
Proof.
  revert st. induction l as [|[k' e'] l IH]; intros st Hnd stale; subst stale.
  - cbn [foldl]. destruct (decide _) as [H|_]; [inversion H|]. split; [reflexivity|lia].
  - cbn [fmap list_fmap fst] in Hnd. apply NoDup_cons in Hnd. destruct Hnd as [Hk' Hnd].
    cbn [foldl]. destruct (IH (sweepEntry now st (k', e')) Hnd) as [IHs IHc].
    rewrite IHs, IHc. clear IHs IHc IH.
    unfold sweepEntry. cbn [fst snd].
    destruct (decide (Exists _ l)) as [Hl|Hl];
      destruct (decide (Exists _ (_ :: l))) as [Hc|Hc].
    + split; [reflexivity|]. f_equal.
      assert (Hne : k' <> k).
      { intros ->. apply Hk'. apply Exists_exists in Hl.
        destruct Hl as ([k0 e0] & Hin & Hk0 & _). cbn in Hk0. subst k0.
        apply list_elem_of_fmap. exists (k, e0). split; [reflexivity|exact Hin]. }
      destruct (expired _ _); [|reflexivity].
      rewrite cleared_emit, decide_False by congruence. unfold cleared. cbn. lia.
    + exfalso. apply Hc, Exists_cons_tl, Hl.
    + apply Exists_cons in Hc. destruct Hc as [[Hk He]|Hc]; [|contradiction].
      cbn [fst snd] in Hk, He. subst k'. rewrite He. split.
      * cbn. apply lookup_delete_eq.
      * rewrite cleared_emit, decide_True by reflexivity. unfold cleared. cbn. lia.
    + destruct (expired (lastAccess e') now) eqn:He; [|split; [reflexivity|lia]].
      assert (Hne : k' <> k).
      { intros ->. apply Hc, Exists_cons_hd. auto. }
      split.
      * cbn. apply lookup_delete_ne. exact Hne.
      * rewrite cleared_emit, decide_False by congruence. unfold cleared. cbn. lia.
Qed.

(** X2. One pass of the cleanup loop, when it runs with the mutex free: a
    stale entry is deleted and [Clear] is called exactly once for its
    sender; a fresh entry stays and [Clear] is not called for it. *)
Lemma sweep_clears_once (now : Time) (st : state) (sender : Address) (e : cacheEntry) :
  mu st = false ->
  senders st !! sender = Some e ->
  (sweep now st).1 = Returns tt
  /\ mu (sweep now st).2 = false
  /\ senders (sweep now st).2 !! sender
     = (if expired (lastAccess e) now then None else Some e)
  /\ cleared sender (sweep now st).2
     = (cleared sender st + if expired (lastAccess e) now then 1 else 0)%nat.
Proof.
  intros Hmu He. unfold sweep. rewrite Hmu. cbn [fst snd].
  split; [reflexivity|]. split; [reflexivity|].
  pose proof (foldl_client_sweepEntry now (map_to_list (senders (Lock st))) (Lock st) sender
                (NoDup_fst_map_to_list _)) as [Hs Hc].
  assert (Hstale :
    Exists (fun kv => kv.1 = sender /\ expired (lastAccess kv.2) now = true)
           (map_to_list (senders (Lock st)))
    <-> expired (lastAccess e) now = true).
  { rewrite Exists_exists. split.
    - intros ([k0 e0] & Hin & Hk & Hexp). cbn in Hk, Hexp. subst k0.
      apply elem_of_map_to_list in Hin. cbn in Hin. rewrite He in Hin.
      injection Hin as <-. exact Hexp.
    - intros Hexp. exists (sender, e). split; [|auto].
      apply elem_of_map_to_list. exact He. }
  split.
  - cbn [Unlock emit senders]. rewrite Hs.
    destruct (expired (lastAccess e) now).
    + rewrite decide_True by (apply Hstale; reflexivity). reflexivity.
    + rewrite decide_False by (rewrite Hstale; discriminate). exact He.
  - unfold Unlock. rewrite cleared_emit, decide_False by discriminate.
    unfold cleared at 1. cbn [effects]. fold (cleared sender (foldl (sweepEntry now) (Lock st)
      (map_to_list (senders (Lock st))))). rewrite Hc.
    assert (Hl : cleared sender (Lock st) = cleared sender st).
    { unfold Lock. rewrite cleared_emit, decide_False by discriminate. unfold cleared. cbn. lia. }
    rewrite Hl.
    destruct (expired (lastAccess e) now).
    + rewrite decide_True by (apply Hstale; reflexivity). lia.
    + rewrite decide_False by (rewrite Hstale; discriminate). lia.
Qed.

End ClientSweep.

(** The sample cache swept once the window has elapsed since time 0. *)
Lemma sweep_clears_once_witness :
  let late := cleanupLoopTime + 1 in
  (RedeemerClient.sweep late sampleCache).1 = Returns tt
  /\ RedeemerClient.senders (RedeemerClient.sweep late sampleCache).2 !! sampleAddress = None
  /\ RedeemerClient.cleared sampleAddress (RedeemerClient.sweep late sampleCache).2 = 1%nat.
Proof.
  pose proof (sweep_clears_once (cleanupLoopTime + 1) sampleCache sampleAddress
                {| RedeemerClient.maxFloat := Some 500; RedeemerClient.lastAccess := 0 |}
                eq_refl eq_refl) as (Hr & _ & Hs & Hc).
  split; [exact Hr|]. split; [exact Hs|exact Hc].
Defined.

(** ** Absent and zero max float *)

Section NilAndZero.

Lemma sendEach_absent_zero (receiving : gset nat) (sender : Address)
    (entries : list (string * nat)) :
  Redeemer.sendEach receiving sender None entries
  = Redeemer.sendEach receiving sender (Some 0) entries.
Proof.
  induction entries as [|[a c] entries IH]; [reflexivity|].
  cbn [Redeemer.sendEach]. rewrite IH. reflexivity.
Qed.

(** C9. The update built for an absent (nil) max float and the one built
    for a max float of zero are the same message, with an empty max-float
    byte string, and so are the broadcasts of the two; the client's receive
    loop (with the mutex free) stores for either one an entry whose max
    float is the integer zero, not nil. *)
Theorem nil_and_zero_maxFloat (receiving : gset nat) (sender : Address)
    (relay : Redeemer.state) (now : Time) (client : RedeemerClient.state) :
  RedeemerClient.mu client = false ->
  let absent := Redeemer.maxFloatUpdate sender None in
  let zero := Redeemer.maxFloatUpdate sender (Some 0) in
  absent = zero
  /\ net.MaxFloat absent = []
  /\ Redeemer.sendMaxFloatUpdate receiving sender None relay
     = Redeemer.sendMaxFloatUpdate receiving sender (Some 0) relay
  /\ RedeemerClient.senders (RedeemerClient.receiveUpdate absent now client).2 !! sender
     = Some {| RedeemerClient.maxFloat := Some 0; RedeemerClient.lastAccess := now |}
  /\ RedeemerClient.senders (RedeemerClient.receiveUpdate zero now client).2 !! sender
     = Some {| RedeemerClient.maxFloat := Some 0; RedeemerClient.lastAccess := now |}.
Proof.
  intros Hmu absent zero.
  assert (Heq : absent = zero) by reflexivity.
  split; [exact Heq|]. split; [reflexivity|]. split; [apply sendEach_absent_zero|].
  rewrite <- Heq. assert (Hgoal :
    RedeemerClient.senders (RedeemerClient.receiveUpdate absent now client).2 !! sender
    = Some {| RedeemerClient.maxFloat := Some 0; RedeemerClient.lastAccess := now |}).
  { unfold RedeemerClient.receiveUpdate. rewrite Hmu. cbn [snd]. subst absent.
    unfold Redeemer.maxFloatUpdate. cbn [net.upd_Sender net.MaxFloat].
    unfold BytesToAddress. rewrite BytesToFixed_Bytes.
    cbn [RedeemerClient.Unlock RedeemerClient.Lock RedeemerClient.emit
         RedeemerClient.set_senders RedeemerClient.senders].
    apply lookup_insert_eq. }
  split; exact Hgoal.
Qed.

End NilAndZero.

(** For the sample address, a relay without subscribers and the sample
    cache. *)
Lemma nil_and_zero_maxFloat_witness :
  Redeemer.maxFloatUpdate sampleAddress None = Redeemer.maxFloatUpdate sampleAddress (Some 0)
  /\ RedeemerClient.senders
       (RedeemerClient.receiveUpdate (Redeemer.maxFloatUpdate sampleAddress None) 9
          sampleCache).2 !! sampleAddress
     = Some {| RedeemerClient.maxFloat := Some 0; RedeemerClient.lastAccess := 9 |}.
Proof.
  pose proof (nil_and_zero_maxFloat ∅ sampleAddress Redeemer.initial 9 sampleCache eq_refl) as H.
  cbv zeta in H. destruct H as (Heq & _ & _ & Habsent & _).
  split; [exact Heq|exact Habsent].
Defined.

(** ** The subscriber registry *)

Section Registry.

Import Redeemer.

Lemma deliver_blocked (m : nat * net.MaxFloatUpdate) (b : broadcast) (c : nat)
    (sent : list (nat * net.MaxFloatUpdate)) :
  b = BlockedOn c sent -> deliver m b = BlockedOn c (m :: sent).
Proof. intros ->. reflexivity. Qed.

(** A broadcast over entries one of which has no receiver ends blocked in
    a send on a channel without receiver. *)
Lemma sendEach_blocks (receiving : gset nat) (sender : Address) (maxFloat : option Z)
    (entries : list (string * nat)) (addr : string) (c : nat) :
  (addr, c) ∈ entries ->
  c ∉ receiving ->
  exists c' sent,
    sendEach receiving sender maxFloat entries = BlockedOn c' sent /\ c' ∉ receiving.
Proof.
  intros Hin Hc. induction entries as [|[a' c'] entries IH].
  - inversion Hin.
  - cbn [sendEach]. destruct (decide (c' ∈ receiving)) as [Hr|Hr].
    + apply elem_of_cons in Hin. destruct Hin as [Heq|Hin].
      * injection Heq as -> ->. contradiction.
      * destruct (IH Hin) as (c'' & sent & Hb & Hc'').
        exists c'', ((c', maxFloatUpdate sender maxFloat) :: sent).
        split; [|exact Hc'']. rewrite Hb. reflexivity.
    + exists c', []. split; [reflexivity|exact Hr].
Qed.

Lemma register_registered (addr : string) (st : state) :
  (register addr st).2 = st /\ subs st !! addr = Some (register addr st).1
  \/ subs st !! addr = None
     /\ subs (register addr st).2 !! addr = Some (register addr st).1.
Proof.
  unfold register. destruct (subs st !! addr) as [c|] eqn:E.
  - left. split; reflexivity.
  - right. split; [reflexivity|]. cbn. apply lookup_insert_eq.
Qed.

Lemma register_lookup (addr : string) (st : state) :
  subs (register addr st).2 !! addr = Some (register addr st).1.
Proof.
  destruct (register_registered addr st) as [[-> H]|[_ H]]; exact H.
Qed.

(** The loop deletes the entry of [addr] exactly when it returns the
    end-of-stream status; it touches no other part of the registry. *)
Lemma MonitorMaxFloat_loop_exit (addr : string) (events : list streamEvent) (st : state) :
  match (MonitorMaxFloat_loop addr events st).1 with
  | Some (Some e) =>
    e = status.Error codes.Internal "EOF"
    /\ (exists u, ev_update u sent_EOF ∈ events)
    /\ (MonitorMaxFloat_loop addr events st).2 = set_subs (delete addr) st
  | Some None =>
    (ev_quit ∈ events \/ ev_ctxDone ∈ events)
    /\ (MonitorMaxFloat_loop addr events st).2 = st
  | None => (MonitorMaxFloat_loop addr events st).2 = st
  end.
Proof.
  induction events as [|ev events IH]; [reflexivity|].
  destruct ev as [u [| |e]| |]; cbn [MonitorMaxFloat_loop fst snd].
  - destruct (MonitorMaxFloat_loop addr events st).1 as [[e|]|].
    + destruct IH as (He & [u' Hu'] & Hst). split; [exact He|]. split; [|exact Hst].
      exists u'. apply list_elem_of_further. exact Hu'.
    + destruct IH as ([H|H] & Hst); (split; [|exact Hst]);
        [left|right]; apply list_elem_of_further; exact H.
    + exact IH.
  - split; [reflexivity|]. split; [|reflexivity]. exists u. apply list_elem_of_here.
  - destruct (MonitorMaxFloat_loop addr events st).1 as [[e'|]|].
    + destruct IH as (He & [u' Hu'] & Hst). split; [exact He|]. split; [|exact Hst].
      exists u'. apply list_elem_of_further. exact Hu'.
    + destruct IH as ([H|H] & Hst); (split; [|exact Hst]);
        [left|right]; apply list_elem_of_further; exact H.
    + exact IH.
  - split; [left; apply list_elem_of_here|reflexivity].
  - split; [right; apply list_elem_of_here|reflexivity].
Qed.

(** C10. [MonitorMaxFloat] for the peer [addr]: when it returns an error,
    the error is the end-of-stream status, some send returned end-of-stream,
    and the registry no longer has an entry for [addr]; when it returns nil
    (the service was shut down or the stream's context ended), the registry
    still has the entry of [addr], and every later broadcast made while no
    handler receives from that entry's channel ends blocked in a send on a
    channel without receiver; while the handler is still waiting the entry
    is there as well. *)
Theorem MonitorMaxFloat_registry (addr : string) (events : list streamEvent) (st : state) :
  let call := MonitorMaxFloat (Some addr) events st in
  match call.1 with
  | Some (Some e) =>
    e = status.Error codes.Internal "EOF"
    /\ (exists u, ev_update u sent_EOF ∈ events)
    /\ subs call.2 !! addr = None
  | Some None =>
    (ev_quit ∈ events \/ ev_ctxDone ∈ events)
    /\ exists c,
         subs call.2 !! addr = Some c
         /\ forall receiving sender maxFloat,
              c ∉ receiving ->
              exists c' sent,
                sendMaxFloatUpdate receiving sender maxFloat call.2 = BlockedOn c' sent
                /\ c' ∉ receiving
  | None => is_Some (subs call.2 !! addr)
  end.
Proof.
  intros call. subst call. unfold MonitorMaxFloat.
  destruct (register addr st) as [c st1] eqn:Hreg.
  assert (Hc : subs st1 !! addr = Some c).
  { pose proof (register_lookup addr st) as H. rewrite Hreg in H. exact H. }
  pose proof (MonitorMaxFloat_loop_exit addr events st1) as Hloop.
  destruct (MonitorMaxFloat_loop addr events st1) as [[[e|]|] st2]; cbn [fst snd] in *.
  - destruct Hloop as (He & Hu & ->). split; [exact He|]. split; [exact Hu|].
    cbn. apply lookup_delete_eq.
  - destruct Hloop as (Hev & ->). split; [exact Hev|]. exists c. split; [exact Hc|].
    intros receiving sender maxFloat Hrecv. unfold sendMaxFloatUpdate.
    apply (sendEach_blocks receiving sender maxFloat _ addr c); [|exact Hrecv].
    apply elem_of_map_to_list. exact Hc.
  - subst st2. rewrite Hc. eauto.
Qed.

End Registry.

(** A peer whose stream context ends after one forwarded update stays
    registered, and the next broadcast blocks on its channel; a peer whose
    send returns end-of-stream is removed. *)
Lemma MonitorMaxFloat_registry_witness :
  let update := Redeemer.maxFloatUpdate otherAddress (Some 500) in
  let closed := Redeemer.MonitorMaxFloat (Some samplePeer)
                  [Redeemer.ev_update update Redeemer.sent_ok; Redeemer.ev_ctxDone]
                  Redeemer.initial in
  let gone := Redeemer.MonitorMaxFloat (Some samplePeer)
                [Redeemer.ev_update update Redeemer.sent_EOF] Redeemer.initial in
  closed.1 = Some None
  /\ Redeemer.subs closed.2 !! samplePeer = Some 0%nat
  /\ Redeemer.sendMaxFloatUpdate ∅ otherAddress (Some 500) closed.2
     = Redeemer.BlockedOn 0%nat []
  /\ gone.1 = Some (Some (status.Error codes.Internal "EOF"))
  /\ Redeemer.subs gone.2 !! samplePeer = None.
Proof.
  cbv zeta.
  pose proof (MonitorMaxFloat_registry samplePeer
                [Redeemer.ev_update (Redeemer.maxFloatUpdate otherAddress (Some 500))
                   Redeemer.sent_EOF]
                Redeemer.initial) as Hgone.
  cbv zeta in Hgone.
  split; [reflexivity|]. split; [vm_compute; reflexivity|].
  split; [vm_compute; reflexivity|].
  split; [reflexivity|].
  exact (proj2 (proj2 Hgone)).
Defined.

(** * Further properties *)

(** ** Byte strings and integers *)

Section ByteStrings.

Lemma fold_SetBytes_acc (l : list byte) (acc : Z) :
  fold_left (fun a b => a * 256 + byte.unsigned b) l acc
  = acc * 256 ^ Z.of_nat (length l) + big.SetBytes l.
Proof.
  unfold big.SetBytes. revert acc. induction l as [|x l IH]; intros acc.
  - simpl. lia.
  - cbn [fold_left length]. rewrite IH, (IH (0 * 256 + byte.unsigned x)).
    rewrite Nat2Z.inj_succ, Z.pow_succ_r by lia. lia.
Qed.

Lemma SetBytes_cons (x : byte) (l : list byte) :
  big.SetBytes (x :: l) = byte.unsigned x * 256 ^ Z.of_nat (length l) + big.SetBytes l.
Proof.
  unfold big.SetBytes at 1. cbn [fold_left]. rewrite fold_SetBytes_acc. lia.
Qed.

Lemma SetBytes_snoc (l : list byte) (x : byte) :
  big.SetBytes (l ++ [x]) = big.SetBytes l * 256 + byte.unsigned x.
Proof. unfold big.SetBytes. rewrite fold_left_app. reflexivity. Qed.

(** A string of [k] bytes reads as an integer below [256 ^ k]. *)
Lemma SetBytes_range (l : list byte) :
  0 <= big.SetBytes l < 256 ^ Z.of_nat (length l).
Proof.
  induction l as [|x l IH].
  - cbn. lia.
  - rewrite SetBytes_cons. cbn [length]. rewrite Nat2Z.inj_succ, Z.pow_succ_r by lia.
    pose proof (byte.unsigned_range x) as Hx. change (2 ^ 8) with 256 in Hx. nia.
Qed.

Lemma SetBytes_trimZeros (l : list byte) : big.SetBytes (trimZeros l) = big.SetBytes l.
Proof.
  induction l as [|x l IH]; [reflexivity|].
  cbn [trimZeros]. destruct (decide (x = "000"%byte)) as [->|Hx]; [|reflexivity].
  rewrite IH, SetBytes_cons. change (byte.unsigned "000"%byte) with 0. lia.
Qed.

Lemma bigEndian_snoc (k : nat) (n : Z) :
  big.bigEndian (S k) n = big.bigEndian k (Z.shiftr n 8) ++ [byte.of_Z n].
Proof.
  unfold big.bigEndian. cbn [seq rev]. rewrite map_app. cbn [map].
  rewrite Z.shiftr_0_r. f_equal.
  rewrite <- seq_shift, <- map_rev, map_map. apply map_ext. intros i.
  rewrite Z.shiftr_shiftr by lia. do 2 f_equal. lia.
Qed.

(** Writing an integer read from [l] on as many bytes as [l] has gives
    [l] back, leading zeros included. *)
Lemma bigEndian_SetBytes (l : list byte) :
  big.bigEndian (length l) (big.SetBytes l) = l.
Proof.
  induction l as [|x l IH] using rev_ind; [reflexivity|].
  rewrite length_app. cbn [length]. rewrite Nat.add_1_r, bigEndian_snoc, SetBytes_snoc.
  pose proof (byte.unsigned_range x) as Hx. change (2 ^ 8) with 256 in Hx.
  rewrite Z.shiftr_div_pow2 by lia. change (2 ^ 8) with 256.
  replace ((big.SetBytes l * 256 + byte.unsigned x) / 256) with (big.SetBytes l)
    by (Z.div_mod_to_equations; lia).
  rewrite IH. f_equal. f_equal.
  apply byte.unsigned_inj. rewrite byte.unsigned_of_Z. unfold byte.wrap.
  change (2 ^ 8) with 256. Z.div_mod_to_equations; lia.
Qed.

Lemma byteLen_SetBytes (x : byte) (l : list byte) :
  x <> "000"%byte -> big.byteLen (big.SetBytes (x :: l)) = S (length l).
Proof.
  intros Hx. rewrite SetBytes_cons.
  pose proof (SetBytes_range l) as Hl.
  pose proof (byte.unsigned_range x) as Hux. change (2 ^ 8) with 256 in Hux.
  assert (Hpos : 1 <= byte.unsigned x).
  { destruct (Z.eq_dec (byte.unsigned x) 0) as [E|E]; [|lia].
    exfalso. apply Hx. apply byte.unsigned_inj. exact E. }
  set (k := Z.of_nat (length l)) in *.
  set (n := byte.unsigned x * 256 ^ k + big.SetBytes l).
  assert (Hk : 0 <= k) by (subst k; lia).
  assert (Hp : 0 < 256 ^ k) by (apply Z.pow_pos_nonneg; lia).
  assert (Hlo : 2 ^ (8 * k) <= n).
  { rewrite Z.pow_mul_r by lia. change (2 ^ 8) with 256. subst n. nia. }
  assert (Hhi : n < 2 ^ (8 * k + 8)).
  { rewrite Z.pow_add_r, Z.pow_mul_r by lia. change (2 ^ 8) with 256. subst n. nia. }
  assert (Hn : 0 < n) by lia.
  apply Z.log2_le_pow2 in Hlo; [|exact Hn].
  apply Z.log2_lt_pow2 in Hhi; [|exact Hn].
  unfold big.byteLen. destruct (Z.eqb_spec n 0) as [E|_]; [lia|].
  f_equal. replace (Z.log2 n / 8) with k by (Z.div_mod_to_equations; lia).
  subst k. apply Nat2Z.id.
Qed.

(** Decoding then encoding a big-width integer strips the leading zero
    bytes and changes nothing else. *)
Lemma Bytes_SetBytes (l : list byte) : big.Bytes (big.SetBytes l) = trimZeros l.
Proof.
  unfold big.Bytes. rewrite Z.abs_eq by apply SetBytes_range.
  rewrite <- (SetBytes_trimZeros l).
  assert (Hform : trimZeros l = [] \/ exists x r, trimZeros l = x :: r /\ x <> "000"%byte).
  { induction l as [|x l IH]; [left; reflexivity|].
    cbn [trimZeros]. destruct (decide (x = "000"%byte)); [exact IH|].
    right. eauto. }
  destruct Hform as [->|(x & r & Hc & Hx)]; [reflexivity|].
  rewrite Hc, byteLen_SetBytes by exact Hx.
  apply (bigEndian_SetBytes (x :: r)).
Qed.

Lemma length_setBytes (n : nat) (b : list byte) : length (setBytes n b) = n.
Proof.
  unfold setBytes. rewrite length_app, length_replicate, length_drop. lia.
Qed.

(** The slice of the array made from [b] is [b] cropped or padded on the
    left to the array's size. *)
Lemma Bytes_BytesToFixed (n : nat) (b : list byte) :
  ethcommon.Bytes (BytesToFixed n b) = setBytes n b.
Proof.
  unfold ethcommon.Bytes, BytesToFixed.
  apply list_eq. intros i.
  destruct (decide (i < n)%nat) as [Hi|Hi].
  - pose proof (length_setBytes n b) as Hlen.
    destruct (setBytes n b !! i) as [x|] eqn:E.
    + rewrite <- (fin_to_nat_to_fin i n Hi).
      apply vlookup_lookup. rewrite lookup_fun_to_vec, fin_to_nat_to_fin, E. reflexivity.
    + apply lookup_ge_None in E. lia.
  - rewrite !lookup_ge_None_2; [reflexivity| |].
    + rewrite length_setBytes. lia.
    + rewrite length_vec_to_list. lia.
Qed.

End ByteStrings.

(** ** More on the wire codec *)

(** Reduces the field accesses of tickets, and nothing else. *)
Ltac ticket_fields :=
  cbn [net.TicketParams_ net.SenderParams net.ExpirationParams net.Recipient net.Sender
       net.FaceValue net.WinProb net.SenderNonce net.RecipientRandHash net.CreationRound
       net.CreationRoundBlockHash net.ExpirationBlock net.RecipientRand net.Sig
       pm.Ticket_ pm.Recipient pm.Sender pm.FaceValue pm.WinProb pm.SenderNonce
       pm.RecipientRandHash pm.CreationRound pm.CreationRoundBlockHash
       pm.ParamsExpirationBlock pm.Sig pm.RecipientRand].

Section Codec.

(** X5. For every signed ticket none of whose pointers is nil (the
    embedded ticket, the face value, the win probability, the expiration
    block: the tickets [pm.SignedTicket] stands for), whatever the signs of
    its integers, [pmTicket (protoTicket t)] returns: the sign of the face
    value, of the win probability and of the expiration block is lost (each
    comes back as its absolute value), the recipient-rand is replaced by the
    recipient address read as an integer, and every other field comes back
    as it was. *)
Theorem pmTicket_protoTicket_magnitudes (t : pm.SignedTicket) :
  pmTicket (protoTicket t)
  = Returns
      {| pm.Ticket_ :=
           {| pm.Recipient := pm.Recipient (pm.Ticket_ t);
              pm.Sender := pm.Sender (pm.Ticket_ t);
              pm.FaceValue := Z.abs (pm.FaceValue (pm.Ticket_ t));
              pm.WinProb := Z.abs (pm.WinProb (pm.Ticket_ t));
              pm.SenderNonce := pm.SenderNonce (pm.Ticket_ t);
              pm.RecipientRandHash := pm.RecipientRandHash (pm.Ticket_ t);
              pm.CreationRound := pm.CreationRound (pm.Ticket_ t);
              pm.CreationRoundBlockHash := pm.CreationRoundBlockHash (pm.Ticket_ t);
              pm.ParamsExpirationBlock := Z.abs (pm.ParamsExpirationBlock (pm.Ticket_ t)) |};
         pm.RecipientRand := addressAsInteger (pm.Recipient (pm.Ticket_ t));
         pm.Sig := pm.Sig t |}.
Proof.
  destruct t as [[rcp snd fv wp nonce rrh cr crbh peb] rr sig].
  unfold pmTicket, protoTicket, BytesToAddress, BytesToHash, addressAsInteger.
  ticket_fields.
  rewrite !BytesToFixed_Bytes, !SetBytes_Bytes. reflexivity.
Qed.

(** X6. The other way round: when [pmTicket] decodes the wire ticket [w],
    encoding the result with [protoTicket] gives [w] in canonical form:
    addresses and hashes cropped or zero-padded on the left to 20 and 32
    bytes, big-width integers without leading zero bytes, nonce, creation
    round and signature unchanged; and the recipient-rand of [w] is gone,
    the recipient's 20 bytes standing in its place. *)
Theorem protoTicket_pmTicket (w : net.Ticket) (t : pm.SignedTicket) :
  pmTicket w = Returns t ->
  exists tp sp ep,
    net.TicketParams_ w = Some tp
    /\ net.SenderParams w = Some sp
    /\ net.ExpirationParams w = Some ep
    /\ protoTicket t
       = {| net.Sender := setBytes AddressLength (net.Sender w);
            net.RecipientRand := setBytes AddressLength (net.Recipient tp);
            net.TicketParams_ := Some
              {| net.Recipient := setBytes AddressLength (net.Recipient tp);
                 net.FaceValue := trimZeros (net.FaceValue tp);
                 net.WinProb := trimZeros (net.WinProb tp);
                 net.RecipientRandHash := setBytes HashLength (net.RecipientRandHash tp);
                 net.ExpirationBlock := trimZeros (net.ExpirationBlock tp) |};
            net.SenderParams := Some
              {| net.SenderNonce := net.SenderNonce sp; net.Sig := net.Sig sp |};
            net.ExpirationParams := Some
              {| net.CreationRound := net.CreationRound ep;
                 net.CreationRoundBlockHash :=
                   setBytes HashLength (net.CreationRoundBlockHash ep) |} |}.
Proof.
  unfold pmTicket. destruct w as [snd rr [tp|] [sp|] [ep|]]; ticket_fields;
    try discriminate.
  intros [= <-]. exists tp, sp, ep. repeat split.
  unfold protoTicket, BytesToAddress, BytesToHash. ticket_fields.
  rewrite !Bytes_BytesToFixed, !Bytes_SetBytes.
  destruct sp, ep; reflexivity.
Qed.

(** X7. For a valid ticket, the passage over the wire is lossless exactly
    when the ticket's recipient-rand equals its recipient address read as an
    integer; that integer is below 2^160, so no ticket whose recipient-rand
    is 2^160 or more survives the passage. *)
Theorem round_trip_lossless_iff (t : pm.SignedTicket) :
  validTicket t ->
  (pmTicket (protoTicket t) = Returns t
   <-> pm.RecipientRand t = addressAsInteger (pm.Recipient (pm.Ticket_ t)))
  /\ 0 <= addressAsInteger (pm.Recipient (pm.Ticket_ t)) < 2 ^ 160.
Proof.
  intros (Hfv & Hwp & Hpeb). split.
  - destruct t as [[rcp snd fv wp nonce rrh cr crbh peb] rr sig].
    cbn [pm.Ticket_ pm.FaceValue pm.WinProb pm.ParamsExpirationBlock pm.RecipientRand
         pm.Recipient] in Hfv, Hwp, Hpeb.
    unfold pmTicket, protoTicket, BytesToAddress, BytesToHash, addressAsInteger.
    ticket_fields.
    rewrite !BytesToFixed_Bytes, !SetBytes_Bytes, !Z.abs_eq by assumption.
    split.
    + intros [= H]. symmetry. exact H.
    + intros ->. reflexivity.
  - unfold addressAsInteger.
    pose proof (SetBytes_range (ethcommon.Bytes (pm.Recipient (pm.Ticket_ t)))) as H.
    unfold ethcommon.Bytes in *. rewrite length_vec_to_list in H.
    exact H.
Qed.

End Codec.

(** The wire form of the sample ticket is canonical already, but for its
    recipient-rand. *)
Lemma protoTicket_pmTicket_witness :
  exists tp sp ep,
    net.TicketParams_ (protoTicket sampleTicket) = Some tp
    /\ net.SenderParams (protoTicket sampleTicket) = Some sp
    /\ net.ExpirationParams (protoTicket sampleTicket) = Some ep
    /\ protoTicket sampleDecoded
       = {| net.Sender := setBytes AddressLength (net.Sender (protoTicket sampleTicket));
            net.RecipientRand := setBytes AddressLength (net.Recipient tp);
            net.TicketParams_ := Some
              {| net.Recipient := setBytes AddressLength (net.Recipient tp);
                 net.FaceValue := trimZeros (net.FaceValue tp);
                 net.WinProb := trimZeros (net.WinProb tp);
                 net.RecipientRandHash := setBytes HashLength (net.RecipientRandHash tp);
                 net.ExpirationBlock := trimZeros (net.ExpirationBlock tp) |};
            net.SenderParams := Some
              {| net.SenderNonce := net.SenderNonce sp; net.Sig := net.Sig sp |};
            net.ExpirationParams := Some
              {| net.CreationRound := net.CreationRound ep;
                 net.CreationRoundBlockHash :=
                   setBytes HashLength (net.CreationRoundBlockHash ep) |} |}.
Proof.
  exact (protoTicket_pmTicket (protoTicket sampleTicket) sampleDecoded sampleTicket_decodes).
Defined.

(** The sample ticket is valid, its recipient-rand is 42 and its recipient
    reads as 258: its passage over the wire is lossy. *)
Lemma round_trip_lossless_iff_witness :
  validTicket sampleTicket
  /\ (pmTicket (protoTicket sampleTicket) = Returns sampleTicket
      <-> pm.RecipientRand sampleTicket
          = addressAsInteger (pm.Recipient (pm.Ticket_ sampleTicket)))
  /\ pmTicket (protoTicket sampleTicket) <> Returns sampleTicket.
Proof.
  assert (Hv : validTicket sampleTicket) by (unfold validTicket; simpl; lia).
  pose proof (proj1 (round_trip_lossless_iff sampleTicket Hv)) as Hiff.
  split; [exact Hv|]. split; [exact Hiff|].
  intros H. apply Hiff in H. vm_compute in H. discriminate H.
Defined.

(** ** Queries and tickets through the relay *)

Section ThroughTheRelay.

Variable describe : status.Status -> error.

(** X8. A client's [MaxFloat] that misses its cache (mutex free) and whose
    query is answered by the relay's [MaxFloat] handler (the stub returns
    the handler's response, or the handler's status as an error) returns the
    magnitude of the value the Float Authority holds for that very sender
    (the value itself when it is not negative), and hands on a Float
    Authority error [e] as the status [Internal], "max float error: e". *)
Theorem MaxFloat_through_relay (sm_MaxFloat : Address -> result (option Z))
    (rpc_MaxFloat : net.MaxFloatReq -> result net.MaxFloatUpdate)
    (sender : Address) (now : Time) (st : RedeemerClient.state) :
  RedeemerClient.mu st = false ->
  RedeemerClient.cached sender st = None ->
  let req := {| net.req_Sender := ethcommon.Bytes sender |} in
  (forall upd, Redeemer.MaxFloat sm_MaxFloat req = Returns (Some upd, None) ->
               rpc_MaxFloat req = ok upd) ->
  (forall s, Redeemer.MaxFloat sm_MaxFloat req = Returns (None, Some s) ->
             rpc_MaxFloat req = failed (describe s)) ->
  match sm_MaxFloat sender with
  | ok (Some v) =>
    (RedeemerClient.MaxFloat rpc_MaxFloat sender now st).1 = Returns (ok (Z.abs v))
  | ok None => Redeemer.MaxFloat sm_MaxFloat req = Panics
  | failed e =>
    (RedeemerClient.MaxFloat rpc_MaxFloat sender now st).1
    = Returns (failed (describe (status.Error codes.Internal
                                   (String.append "max float error: " e))))
  end.
Proof.
  intros Hmu Hc req Hok Hfail.
  rewrite (MaxFloat_miss rpc_MaxFloat sender now st Hmu Hc). cbn [fst]. fold req.
  unfold Redeemer.MaxFloat in *. subst req. cbn [net.req_Sender] in *.
  unfold BytesToAddress in *. rewrite BytesToFixed_Bytes in *.
  destruct (sm_MaxFloat sender) as [[v|]|e].
  - rewrite (Hok _ eq_refl). cbn [RedeemerClient.decoded net.MaxFloat].
    rewrite SetBytes_Bytes. reflexivity.
  - reflexivity.
  - rewrite (Hfail _ eq_refl). reflexivity.
Qed.

(** X9. What the Float Authority is given when a client queues a valid
    ticket [t] through the relay: [t] with its recipient-rand replaced by
    the recipient address read as an integer. The client gets the relay's
    reply to that submission, and the relay starts [monitorMaxFloat] for
    the sender of [t] when the submission is accepted, and nothing when it
    is rejected. *)
Theorem QueueTicket_through_relay (sm_QueueTicket : pm.SignedTicket -> option error)
    (reply : outcome (option net.QueueTicketRes * option status.Status) -> option error)
    (t : pm.SignedTicket) (st : Redeemer.state) :
  validTicket t ->
  let submitted :=
    {| pm.Ticket_ := pm.Ticket_ t;
       pm.RecipientRand := addressAsInteger (pm.Recipient (pm.Ticket_ t));
       pm.Sig := pm.Sig t |} in
  RedeemerClient.QueueTicket
    (fun w => reply (Redeemer.QueueTicket sm_QueueTicket w st).1) t
  = reply (match sm_QueueTicket submitted with
           | Some e => Returns (None, Some (status.Error codes.Internal e))
           | None => Returns (Some net.Build_QueueTicketRes, None)
           end)
  /\ (Redeemer.QueueTicket sm_QueueTicket (protoTicket t) st).2
     = match sm_QueueTicket submitted with
       | Some _ => st
       | None => Redeemer.spawn (Redeemer.mmf_entry (pm.Sender (pm.Ticket_ t))) st
       end.
Proof.
  intros (Hfv & Hwp & Hpeb) submitted.
  assert (Hdec : pmTicket (protoTicket t) = Returns submitted).
  { subst submitted. destruct t as [[rcp snd fv wp nonce rrh cr crbh peb] rr sig].
    cbn [pm.Ticket_ pm.FaceValue pm.WinProb pm.ParamsExpirationBlock] in Hfv, Hwp, Hpeb.
    unfold pmTicket, protoTicket, BytesToAddress, BytesToHash, addressAsInteger.
    ticket_fields.
    rewrite !BytesToFixed_Bytes, !SetBytes_Bytes_nonneg by assumption. reflexivity. }
  unfold RedeemerClient.QueueTicket, Redeemer.QueueTicket. rewrite Hdec.
  assert (Hsnd : BytesToAddress (net.Sender (protoTicket t)) = pm.Sender (pm.Ticket_ t)).
  { unfold protoTicket. ticket_fields. apply BytesToFixed_Bytes. }
  rewrite Hsnd. destruct (sm_QueueTicket submitted); split; reflexivity.
Qed.

End ThroughTheRelay.

(** A Float Authority that holds 500 for every sender, behind the relay's
    query handler: the client reads 500 for the other address. *)
Lemma MaxFloat_through_relay_witness :
  let rpc := fun req => ok {| net.upd_Sender := net.req_Sender req;
                              net.MaxFloat := big.Bytes 500 |} in
  (RedeemerClient.MaxFloat rpc otherAddress 9 sampleCache).1 = Returns (ok 500).
Proof.
  apply (MaxFloat_through_relay status.Message (fun _ => ok (Some 500))
           (fun req => ok {| net.upd_Sender := net.req_Sender req;
                             net.MaxFloat := big.Bytes 500 |})
           otherAddress 9 sampleCache eq_refl sampleCache_miss).
  - intros upd H. injection H as <-. reflexivity.
  - intros s H. discriminate H.
Defined.

(** The sample ticket queued through a relay whose Float Authority accepts
    it: no error for the client, a monitor started for its sender. *)
Lemma QueueTicket_through_relay_witness :
  let reply := fun o : outcome (option net.QueueTicketRes * option status.Status) =>
                 match o with
                 | Returns (_, Some s) => Some (status.Message s)
                 | _ => None
                 end in
  validTicket sampleTicket
  /\ RedeemerClient.QueueTicket
       (fun w => reply (Redeemer.QueueTicket accept w Redeemer.initial).1) sampleTicket
     = None
  /\ (Redeemer.QueueTicket accept (protoTicket sampleTicket) Redeemer.initial).2
     = Redeemer.spawn (Redeemer.mmf_entry otherAddress) Redeemer.initial.
Proof.
  assert (Hv : validTicket sampleTicket) by (unfold validTicket; simpl; lia).
  split; [exact Hv|].
  exact (QueueTicket_through_relay accept
           (fun o => match o with
                     | Returns (_, Some s) => Some (status.Message s)
                     | _ => None
                     end)
           sampleTicket Redeemer.initial Hv).
Defined.

(** ** The client's cache and the stream *)

Section ClientCache.

Import RedeemerClient.

Variable rpc_MaxFloat : net.MaxFloatReq -> result net.MaxFloatUpdate.

Lemma receiveUpdate_free (u : net.MaxFloatUpdate) (now : Time) (st : state) :
  mu st = false ->
  receiveUpdate u now st
  = (Returns tt,
     Unlock (set_senders
               (insert (BytesToAddress (net.upd_Sender u))
                       {| maxFloat := Some (big.SetBytes (net.MaxFloat u));
                          lastAccess := now |}) (Lock st))).
Proof. intros Hmu. unfold receiveUpdate. rewrite Hmu. reflexivity. Qed.

Lemma rpcCalls_receiveUpdate (u : net.MaxFloatUpdate) (now : Time) (st : state) :
  rpcCalls (receiveUpdate u now st).2 = rpcCalls st.
Proof.
  unfold receiveUpdate. destruct (mu st); [reflexivity|]. cbn [snd].
  unfold rpcCalls. cbn [Unlock Lock emit set_senders effects].
  rewrite <- app_assoc, omap_app. cbn. apply app_nil_r.
Qed.

(** While nothing ends the loop and the mutex is free, the loop keeps
    waiting with the mutex free, and makes no call to the relay. *)
Lemma monitorMaxFloat_loop_waiting (events : list recvEvent) (st : state) :
  mu st = false ->
  Forall keepsReceiving events ->
  (monitorMaxFloat_loop events st).1 = loop_waiting
  /\ mu (monitorMaxFloat_loop events st).2 = false
  /\ rpcCalls (monitorMaxFloat_loop events st).2 = rpcCalls st.
Proof.
  revert st. induction events as [|ev events IH]; intros st Hmu Hev.
  - repeat split. exact Hmu.
  - apply Forall_cons in Hev. destruct Hev as [Hk Hev].
    destruct ev as [| |u now|e]; cbn [keepsReceiving] in Hk; try contradiction;
      cbn [monitorMaxFloat_loop].
    + pose proof (rpcCalls_receiveUpdate u now st) as Hrpc.
      rewrite (receiveUpdate_free u now st Hmu) in *. cbn [snd] in Hrpc.
      rewrite <- Hrpc. apply IH; [reflexivity|exact Hev].
    + apply IH; assumption.
Qed.

Lemma monitorMaxFloat_loop_app (events more : list recvEvent) (st : state) :
  mu st = false ->
  Forall keepsReceiving events ->
  monitorMaxFloat_loop (events ++ more) st
  = monitorMaxFloat_loop more (monitorMaxFloat_loop events st).2.
Proof.
  revert st. induction events as [|ev events IH]; intros st Hmu Hev; [reflexivity|].
  apply Forall_cons in Hev. destruct Hev as [Hk Hev].
  destruct ev as [| |u now|e]; cbn [keepsReceiving] in Hk; try contradiction;
    cbn [app monitorMaxFloat_loop].
  - rewrite (receiveUpdate_free u now st Hmu). apply IH; [reflexivity|exact Hev].
  - apply IH; assumption.
Qed.

(** X10. A max float the relay broadcasts for a sender ([maxFloatUpdate],
    nil or not), once taken by the client's receive loop (stream open, loop
    not ended, mutex free), is what the client's next [MaxFloat] for that
    sender returns, from the cache and without a call to the relay: the
    magnitude of the value, and zero for a nil one. *)
Theorem streamed_then_MaxFloat (events : list recvEvent) (sender : Address)
    (maxFloat : option Z) (now now' : Time) (st : state) :
  mu st = false ->
  Forall keepsReceiving events ->
  let update := Redeemer.maxFloatUpdate sender maxFloat in
  let st' := (monitorMaxFloat None (events ++ [rx_update update now]) st).2 in
  (MaxFloat rpc_MaxFloat sender now' st').1 = Returns (ok (streamedValue maxFloat))
  /\ rpcCalls (MaxFloat rpc_MaxFloat sender now' st').2 = rpcCalls st.
Proof.
  intros Hmu Hev update st'. subst st'. unfold monitorMaxFloat.
  rewrite (monitorMaxFloat_loop_app events _ st Hmu Hev).
  destruct (monitorMaxFloat_loop_waiting events st Hmu Hev) as (_ & Hmu1 & Hrpc1).
  set (st1 := (monitorMaxFloat_loop events st).2) in *.
  cbn [monitorMaxFloat_loop]. rewrite (receiveUpdate_free update now st1 Hmu1).
  cbn [monitorMaxFloat_loop snd].
  set (st2 := Unlock _).
  assert (Hmu2 : mu st2 = false) by reflexivity.
  assert (Hval : big.SetBytes (net.MaxFloat update) = streamedValue maxFloat).
  { subst update. unfold Redeemer.maxFloatUpdate. cbn [net.MaxFloat].
    destruct maxFloat as [v|]; [apply SetBytes_Bytes|reflexivity]. }
  assert (Hs : BytesToAddress (net.upd_Sender update) = sender)
    by apply BytesToFixed_Bytes.
  assert (Hc2 : cached sender st2 = Some (streamedValue maxFloat)).
  { subst st2. unfold cached. cbn [Unlock Lock emit set_senders senders].
    rewrite Hs, lookup_insert_eq. cbn [mbind option_bind RedeemerClient.maxFloat].
    rewrite Hval. reflexivity. }
  rewrite (MaxFloat_hit rpc_MaxFloat sender now' st2 _ Hmu2 Hc2). cbn [fst snd].
  split; [reflexivity|].
  rewrite <- Hrpc1. pose proof (rpcCalls_receiveUpdate update now st1) as Hrpc2.
  rewrite (receiveUpdate_free update now st1 Hmu1) in Hrpc2. cbn [snd] in Hrpc2.
  fold st2 in Hrpc2. rewrite <- Hrpc2.
  unfold rpcCalls. cbn [set_senders Lock emit effects].
  rewrite omap_app. cbn. apply app_nil_r.
Qed.

(** With the mutex held, nothing moves. *)
Lemma react_held (running : list loop) (ev : event) (st : state) :
  mu st = true -> react rpc_MaxFloat running ev st = st.
Proof.
  intros Hmu. destruct ev as [u now|e|now|sender now]; unfold react.
  - destruct (decide _); [|reflexivity]. unfold receiveUpdate. rewrite Hmu. reflexivity.
  - reflexivity.
  - destruct (decide _); [|reflexivity]. unfold sweep. rewrite Hmu. reflexivity.
  - unfold MaxFloat. rewrite Hmu. reflexivity.
Qed.

Lemma run_held (running : list loop) (events : list event) (st : state) :
  mu st = true -> run rpc_MaxFloat running events st = st.
Proof.
  intros Hmu. induction events as [|ev events IH]; [reflexivity|].
  cbn [run foldl]. rewrite (react_held running ev st Hmu). exact IH.
Qed.

(** X11. One cache hit freezes the client: after a [MaxFloat] that hits
    (called with the mutex free), whichever loops run and whatever happens
    (updates from the stream, sweeps, further calls), the state of the
    client stays what it was at the return of that call: no update is ever
    stored again and no entry is ever swept; and a receive loop stops for
    good in [Lock] at its first update. *)
Theorem hit_freezes_client (sender : Address) (v : Z) (now : Time) (st : state)
    (running : list loop) (events : list event)
    (u : net.MaxFloatUpdate) (now' : Time) (more : list recvEvent) :
  mu st = false ->
  cached sender st = Some v ->
  let st' := (MaxFloat rpc_MaxFloat sender now st).2 in
  run rpc_MaxFloat running events st' = st'
  /\ monitorMaxFloat None (rx_update u now' :: more) st' = (loop_stuck, st').
Proof.
  intros Hmu Hc st'. subst st'.
  rewrite (MaxFloat_hit rpc_MaxFloat sender now st v Hmu Hc). cbn [snd].
  split.
  - apply run_held. reflexivity.
  - reflexivity.
Qed.

Lemma noNilEntry_sweepEntries (now : Time) (l : list (Address * cacheEntry)) (st : state) :
  noNilEntry st -> noNilEntry (foldl (sweepEntry now) st l).
Proof.
  revert st. induction l as [|[k e] l IH]; intros st Hst; [exact Hst|].
  cbn [foldl]. apply IH. unfold sweepEntry. cbn [fst snd].
  destruct (expired _ _); [|exact Hst].
  intros s e' Hs. cbn [emit set_senders senders] in Hs.
  apply lookup_delete_Some in Hs. destruct Hs as [_ Hs]. exact (Hst s e' Hs).
Qed.

Lemma noNilEntry_react (running : list loop) (ev : event) (st : state) :
  noNilEntry st -> noNilEntry (react rpc_MaxFloat running ev st).
Proof.
  intros Hst. destruct ev as [u now|e|now|sender now]; unfold react.
  - destruct (decide _); [|exact Hst]. unfold receiveUpdate.
    destruct (mu st); [exact Hst|]. cbn [snd].
    intros s e' Hs. cbn [Unlock Lock emit set_senders senders] in Hs.
    apply lookup_insert_Some in Hs. destruct Hs as [[_ <-]|[_ Hs]]; [cbn; eauto|].
    exact (Hst s e' Hs).
  - exact Hst.
  - destruct (decide _); [|exact Hst]. unfold sweep.
    destruct (mu st); [exact Hst|]. cbn [snd].
    intros s e' Hs. cbn [Unlock emit senders] in Hs.
    exact (noNilEntry_sweepEntries now _ (Lock st) Hst s e' Hs).
  - unfold MaxFloat. destruct (mu st); [exact Hst|].
    destruct (senders (Lock st) !! sender) as [[[v|] la]|] eqn:E; cbn [snd].
    + intros s e' Hs. cbn [Lock emit set_senders senders] in Hs.
      apply lookup_insert_Some in Hs. destruct Hs as [[_ <-]|[_ Hs]]; [cbn; eauto|].
      exact (Hst s e' Hs).
    + destruct (rpc_MaxFloat _); exact Hst.
    + destruct (rpc_MaxFloat _); exact Hst.
Qed.

(** X12. The cache never holds an entry with a nil max float: a cache
    without one stays without one whichever loops run and whatever happens.
    (Entries are written by the receive loop only, always with a value, so
    the test [mf.maxFloat != nil] of [MaxFloat] never fails for an entry that
    is there: the cache misses exactly for the senders without entry.) *)
Theorem cache_has_no_nil_entry (running : list loop) (events : list event)
    (st : state) (sender : Address) :
  noNilEntry st ->
  let st' := run rpc_MaxFloat running events st in
  noNilEntry st'
  /\ (cached sender st' = None <-> senders st' !! sender = None).
Proof.
  intros Hst st'.
  assert (Hinv : noNilEntry st').
  { subst st'. revert st Hst. induction events as [|ev events IH]; intros st Hst.
    - exact Hst.
    - cbn [run foldl]. apply IH. apply noNilEntry_react. exact Hst. }
  split; [exact Hinv|].
  unfold cached. destruct (senders st' !! sender) as [e|] eqn:E; cbn.
  - destruct (Hinv sender e E) as [v Hv]. rewrite Hv. split; discriminate.
  - split; reflexivity.
Qed.

End ClientCache.

(** ** The registry and the broadcasts *)

Section RegistryMore.

Import Redeemer.

Lemma subs_register_other (addr other : string) (st : state) :
  other <> addr -> subs (register addr st).2 !! other = subs st !! other.
Proof.
  intros Hne. unfold register. destruct (subs st !! addr); [reflexivity|].
  cbn. apply lookup_insert_ne. congruence.
Qed.

Lemma MonitorMaxFloat_loop_other (addr other : string) (events : list streamEvent)
    (st : state) :
  other <> addr ->
  subs (MonitorMaxFloat_loop addr events st).2 !! other = subs st !! other.
Proof.
  intros Hne. induction events as [|[u [| |e]| |] events IH];
    cbn [MonitorMaxFloat_loop snd]; try reflexivity; try exact IH.
  cbn. apply lookup_delete_ne. congruence.
Qed.

(** X13. A streaming call of one peer never touches the registry entry of
    another: whatever [MonitorMaxFloat] for the peer [addr] does (register,
    wait, return on shutdown or end of context, unsubscribe on end of
    stream), every other peer has after it the entry it had before. *)
Theorem MonitorMaxFloat_other_peers (addr other : string) (events : list streamEvent)
    (st : state) :
  other <> addr ->
  subs (MonitorMaxFloat (Some addr) events st).2 !! other = subs st !! other.
Proof.
  intros Hne. unfold MonitorMaxFloat.
  pose proof (subs_register_other addr other st Hne) as Hreg.
  destruct (register addr st) as [c st1]. cbn [snd] in Hreg.
  rewrite MonitorMaxFloat_loop_other by exact Hne. exact Hreg.
Qed.

Lemma registryOk_register (addr : string) (st : state) :
  registryOk st -> registryOk (register addr st).2.
Proof.
  intros [Hlt Hinj]. unfold register. destruct (subs st !! addr) as [c|] eqn:E;
    [split; assumption|].
  cbn [snd]. split.
  - intros a c Ha. cbn in Ha. cbn.
    apply lookup_insert_Some in Ha. destruct Ha as [[_ <-]|[_ Ha]]; [lia|].
    specialize (Hlt a c Ha). lia.
  - intros a b c Ha Hb. cbn in Ha, Hb.
    apply lookup_insert_Some in Ha. apply lookup_insert_Some in Hb.
    destruct Ha as [[<- <-]|[Hna Ha]]; destruct Hb as [[<- Hc]|[Hnb Hb]].
    + reflexivity.
    + specialize (Hlt b _ Hb). lia.
    + subst c. specialize (Hlt a _ Ha). lia.
    + exact (Hinj a b c Ha Hb).
Qed.

Lemma registryOk_loop (addr : string) (events : list streamEvent) (st : state) :
  registryOk st -> registryOk (MonitorMaxFloat_loop addr events st).2.
Proof.
  intros Hst. induction events as [|[u [| |e]| |] events IH];
    cbn [MonitorMaxFloat_loop snd]; try exact Hst; try exact IH.
  destruct Hst as [Hlt Hinj]. split.
  - intros a c Ha. cbn in Ha. cbn. apply lookup_delete_Some in Ha.
    destruct Ha as [_ Ha]. exact (Hlt a c Ha).
  - intros a b c Ha Hb. cbn in Ha, Hb.
    apply lookup_delete_Some in Ha. apply lookup_delete_Some in Hb.
    destruct Ha as [_ Ha]. destruct Hb as [_ Hb]. exact (Hinj a b c Ha Hb).
Qed.

(** X14. The registry never gives one channel to two peers: in a relay
    where no two peers share a channel and the channels in use are older
    than the next one to be made, both still hold after any
    [MonitorMaxFloat] call, so a newly registered peer always gets a channel
    of its own, also after other peers were unsubscribed. *)
Theorem MonitorMaxFloat_keeps_registryOk (peer : option string)
    (events : list streamEvent) (st : state) :
  registryOk st ->
  registryOk (MonitorMaxFloat peer events st).2.
Proof.
  intros Hst. unfold MonitorMaxFloat. destruct peer as [addr|]; [|exact Hst].
  pose proof (registryOk_register addr st Hst) as Hreg.
  destruct (register addr st) as [c st1]. cbn [snd] in Hreg.
  apply registryOk_loop. exact Hreg.
Qed.

Lemma sendEach_all_receiving (receiving : gset nat) (sender : Address)
    (maxFloat : option Z) (entries : list (string * nat)) :
  Forall (fun kv => kv.2 ∈ receiving) entries ->
  sendEach receiving sender maxFloat entries
  = Delivered (map (fun kv : string * nat => (kv.2, maxFloatUpdate sender maxFloat)) entries).
Proof.
  induction entries as [|[a c] entries IH]; intros Hall; [reflexivity|].
  apply Forall_cons in Hall. destruct Hall as [Hc Hall]. cbn [snd] in Hc.
  cbn [sendEach map]. rewrite decide_True by exact Hc.
  rewrite (IH Hall). reflexivity.
Qed.

Lemma sendMaxFloatUpdate_all_receiving (receiving : gset nat) (sender : Address)
    (maxFloat : option Z) (st : state) :
  (forall a c, subs st !! a = Some c -> c ∈ receiving) ->
  sendMaxFloatUpdate receiving sender maxFloat st = Delivered (fanOut sender st maxFloat).
Proof.
  intros Hall. unfold sendMaxFloatUpdate, fanOut. apply sendEach_all_receiving.
  apply Forall_forall. intros [a c] Hin. apply elem_of_map_to_list in Hin.
  exact (Hall a c Hin).
Qed.

(** X15. When a handler is receiving on every registered channel, a
    broadcast completes and reaches every subscriber: it delivers as many
    messages as the registry has entries, one of them on the channel of each
    registered peer, each carrying the sender and the max float broadcast. *)
Theorem broadcast_reaches_everyone (receiving : gset nat) (sender : Address)
    (maxFloat : option Z) (st : state) :
  (forall a c, subs st !! a = Some c -> c ∈ receiving) ->
  exists sent,
    sendMaxFloatUpdate receiving sender maxFloat st = Delivered sent
    /\ length sent = size (subs st)
    /\ (forall a c, subs st !! a = Some c ->
                    (c, maxFloatUpdate sender maxFloat) ∈ sent)
    /\ (forall m, m ∈ sent -> m.2 = maxFloatUpdate sender maxFloat).
Proof.
  intros Hall. exists (fanOut sender st maxFloat).
  split; [apply sendMaxFloatUpdate_all_receiving; exact Hall|].
  unfold fanOut. split; [|split].
  - rewrite length_map. apply length_map_to_list.
  - intros a c Hac. apply list_elem_of_fmap. exists (a, c).
    split; [reflexivity|]. apply elem_of_map_to_list. exact Hac.
  - intros m Hm. apply list_elem_of_fmap in Hm. destruct Hm as ([a c] & -> & _).
    reflexivity.
Qed.

(** X16. A sender's monitor, as long as the service is not shut down and
    a handler receives on every registered channel, keeps waiting whatever
    errors its subscription reports, leaves the relay's state alone, and
    delivers for each change of the max float it observes, in the order it
    observes them, one message per registry entry: every subscriber gets
    the updates of a sender one by one, in order. *)
Theorem monitor_relays_changes_in_order (receiving : gset nat) (i : nat)
    (sender : Address) (events : list monitorEvent) (st : state) :
  (forall a c, subs st !! a = Some c -> c ∈ receiving) ->
  mon_quit ∉ events ->
  monitorMaxFloat_select receiving i sender events st
  = (mon_waiting, concat (map (fanOut sender st) (changes events)), st).
Proof.
  intros Hall. induction events as [|ev events IH]; intros Hq; [reflexivity|].
  assert (Hq' : mon_quit ∉ events).
  { intros H. apply Hq. apply list_elem_of_further. exact H. }
  destruct ev as [|e|mf].
  - exfalso. apply Hq. apply list_elem_of_here.
  - cbn [monitorMaxFloat_select changes omap]. exact (IH Hq').
  - cbn [monitorMaxFloat_select].
    rewrite (sendMaxFloatUpdate_all_receiving receiving sender mf st Hall).
    rewrite (IH Hq'). reflexivity.
Qed.

End RegistryMore.

Section Stalled.

Import Redeemer.

Lemma sendEach_blocks_short (receiving : gset nat) (sender : Address)
    (maxFloat : option Z) (entries : list (string * nat)) (addr : string) (c : nat) :
  (addr, c) ∈ entries ->
  c ∉ receiving ->
  exists c' sent,
    sendEach receiving sender maxFloat entries = BlockedOn c' sent
    /\ (c' ∉ receiving)
    /\ (length sent < length entries)%nat.
Proof.
  intros Hin Hc. induction entries as [|[a' c'] entries IH].
  - inversion Hin.
  - cbn [sendEach]. destruct (decide (c' ∈ receiving)) as [Hr|Hr].
    + apply elem_of_cons in Hin. destruct Hin as [Heq|Hin].
      * injection Heq as -> ->. contradiction.
      * destruct (IH Hin) as (c'' & sent & Hb & Hc'' & Hlen).
        exists c'', ((c', maxFloatUpdate sender maxFloat) :: sent).
        rewrite Hb. cbn [deliver length]. repeat split; [exact Hc''|lia].
    + exists c', []. cbn [length]. repeat split; [exact Hr|lia].
Qed.

(** X17. One registered peer without a handler on its channel stalls a
    sender's monitor for everybody: at the first change of the max float the
    monitor ends blocked in a send on a channel without receiver, having
    reached fewer subscribers than are registered, and whatever comes after
    (further changes, errors, even the shutdown signal) it delivers nothing
    more and stays blocked. *)
Theorem dead_subscriber_stalls_monitor (receiving : gset nat) (i : nat)
    (sender : Address) (maxFloat : option Z) (st : state) (addr : string) (c : nat) :
  subs st !! addr = Some c ->
  c ∉ receiving ->
  exists c' sent,
    (c' ∉ receiving)
    /\ (length sent < size (subs st))%nat
    /\ forall rest,
         monitorMaxFloat_select receiving i sender (mon_maxFloat maxFloat :: rest) st
         = (mon_blocked c', sent, st).
Proof.
  intros Hc Hrecv.
  destruct (sendEach_blocks_short receiving sender maxFloat (map_to_list (subs st)) addr c)
    as (c' & sent & Hb & Hc' & Hlen); [apply elem_of_map_to_list; exact Hc|exact Hrecv|].
  exists c', sent. split; [exact Hc'|]. split.
  - rewrite length_map_to_list in Hlen. exact Hlen.
  - intros rest. cbn [monitorMaxFloat_select]. unfold sendMaxFloatUpdate.
    rewrite Hb. reflexivity.
Qed.

End Stalled.

(** ** Sweeps and touches *)

Section SweepMore.

Import Redeemer.

(** X18. Sweeping twice in a row is sweeping once at the later time: when
    nothing touches the liveness map between two ticks of the cleanup loop,
    the two passes leave what a single pass at the second tick leaves (in
    particular a second pass at the same time removes nothing more), and no
    entry that is left is stale at that time. *)
Theorem startCleanupLoop_two_ticks (now now' : Time) (st : state) :
  now <= now' ->
  startCleanupLoop [ev_tick now; ev_tick now'] st = startCleanupLoop [ev_tick now'] st
  /\ forall sender t,
       liveSenders (startCleanupLoop [ev_tick now; ev_tick now'] st) !! sender = Some t ->
       liveSenders st !! sender = Some t /\ now' <= t + cleanupLoopTime.
Proof.
  intros Hle.
  assert (Heq : sweep now' (sweep now (liveSenders st)) = sweep now' (liveSenders st)).
  { apply map_eq. intros k. rewrite !sweep_lookup.
    destruct (liveSenders st !! k) as [t|]; [|reflexivity].
    unfold expired. repeat case_bool_decide; try reflexivity; lia. }
  split.
  - cbn [startCleanupLoop]. unfold set_liveSenders. cbn [liveSenders subs goroutines
      subscriptions nextChan]. rewrite Heq. reflexivity.
  - intros sender t. cbn [startCleanupLoop]. unfold set_liveSenders. cbn [liveSenders].
    rewrite Heq, sweep_lookup.
    destruct (liveSenders st !! sender) as [t0|]; [|discriminate].
    unfold expired. case_bool_decide; [discriminate|].
    intros [= ->]. split; [reflexivity|lia].
Qed.

Variable sm_QueueTicket : pm.SignedTicket -> option error.

(** X19. A sender's liveness entry lives for one window after its last
    accepted ticket: when a ticket is queued and its goroutine has settled
    at time [touched], whatever the entry was before, a sweep at time [now]
    removes the entry if [touched] plus the window is before [now], and
    otherwise leaves it with [touched] as its last access. *)
Theorem touched_then_swept (ticket : net.Ticket) (t : pm.SignedTicket)
    (st : state) (touched now : Time) :
  pmTicket ticket = Returns t ->
  sm_QueueTicket t = None ->
  let sender := BytesToAddress (net.Sender ticket) in
  let st' := startCleanupLoop [ev_tick now]
               (queueThenSettle sm_QueueTicket ticket st touched) in
  liveSenders st' !! sender
  = if bool_decide (touched + cleanupLoopTime < now) then None else Some touched.
Proof.
  intros Ht Hsm sender st'. subst st'.
  destruct (queueThenSettle_accepted sm_QueueTicket ticket t st touched Ht Hsm) as [Hl _].
  fold sender in Hl.
  cbn [startCleanupLoop]. unfold set_liveSenders. cbn [liveSenders].
  rewrite sweep_lookup, Hl. reflexivity.
Qed.

End SweepMore.

(** ** The further properties on samples *)

Lemma oneSubscriber_receiving :
  forall a c, Redeemer.subs oneSubscriber !! a = Some c -> c ∈ ({[ 0%nat ]} : gset nat).
Proof.
  intros a c H. unfold oneSubscriber in H. cbn [Redeemer.subs] in H.
  apply lookup_singleton_Some in H. destruct H as [_ <-]. apply elem_of_singleton_2.
  reflexivity.
Qed.

Lemma sampleCache_noNilEntry : RedeemerClient.noNilEntry sampleCache.
Proof.
  intros s e H. unfold sampleCache in H. cbn [RedeemerClient.senders] in H.
  apply lookup_singleton_Some in H. destruct H as [_ <-]. cbn. eauto.
Qed.

(** An update of 321 for the other address, taken after a receive error, is
    what the next [MaxFloat] for that address returns. *)
Lemma streamed_then_MaxFloat_witness :
  let update := Redeemer.maxFloatUpdate otherAddress (Some 321) in
  let st' := (RedeemerClient.monitorMaxFloat None
                [RedeemerClient.rx_error "connection reset";
                 RedeemerClient.rx_update update 5] sampleCache).2 in
  (RedeemerClient.MaxFloat sampleRelay otherAddress 6 st').1 = Returns (ok 321)
  /\ RedeemerClient.rpcCalls (RedeemerClient.MaxFloat sampleRelay otherAddress 6 st').2 = [].
Proof.
  exact (streamed_then_MaxFloat sampleRelay [RedeemerClient.rx_error "connection reset"]
           otherAddress (Some 321) 5 6 sampleCache eq_refl
           ltac:(repeat constructor)).
Defined.

(** After the hit for the sample address, an update and an elapsed window
    change nothing, with both loops running. *)
Lemma hit_freezes_client_witness :
  let st' := (RedeemerClient.MaxFloat sampleRelay sampleAddress 9 sampleCache).2 in
  let update := Redeemer.maxFloatUpdate sampleAddress (Some 7) in
  RedeemerClient.run sampleRelay
    [RedeemerClient.loop_monitorMaxFloat; RedeemerClient.loop_startCleanupLoop]
    [RedeemerClient.ev_update update 10; RedeemerClient.ev_period (cleanupLoopTime + 11)]
    st' = st'
  /\ RedeemerClient.monitorMaxFloat None [RedeemerClient.rx_update update 10] st'
     = (RedeemerClient.loop_stuck, st').
Proof.
  exact (hit_freezes_client sampleRelay sampleAddress 500 9 sampleCache
           [RedeemerClient.loop_monitorMaxFloat; RedeemerClient.loop_startCleanupLoop]
           [RedeemerClient.ev_update (Redeemer.maxFloatUpdate sampleAddress (Some 7)) 10;
            RedeemerClient.ev_period (cleanupLoopTime + 11)]
           (Redeemer.maxFloatUpdate sampleAddress (Some 7)) 10 []
           eq_refl sampleCache_hit).
Defined.

(** The sample cache has no nil entry, and none after a nil update. *)
Lemma cache_has_no_nil_entry_witness :
  let st' := RedeemerClient.run sampleRelay RedeemerClient.Start
               [RedeemerClient.ev_update (Redeemer.maxFloatUpdate otherAddress None) 3]
               sampleCache in
  RedeemerClient.noNilEntry sampleCache
  /\ RedeemerClient.noNilEntry st'
  /\ (RedeemerClient.cached otherAddress st' = None
      <-> RedeemerClient.senders st' !! otherAddress = None).
Proof.
  split; [exact sampleCache_noNilEntry|].
  exact (cache_has_no_nil_entry sampleRelay RedeemerClient.Start
           [RedeemerClient.ev_update (Redeemer.maxFloatUpdate otherAddress None) 3]
           sampleCache otherAddress sampleCache_noNilEntry).
Defined.

(** The sample peer registered, another peer comes and goes at end of
    stream: the sample peer keeps its channel. *)
Lemma MonitorMaxFloat_other_peers_witness :
  Redeemer.subs
    (Redeemer.MonitorMaxFloat (Some "10.0.0.8:52000"%string)
       [Redeemer.ev_update (Redeemer.maxFloatUpdate otherAddress (Some 1)) Redeemer.sent_EOF]
       oneSubscriber).2 !! samplePeer
  = Some 0%nat.
Proof.
  exact (MonitorMaxFloat_other_peers "10.0.0.8:52000" samplePeer
           [Redeemer.ev_update (Redeemer.maxFloatUpdate otherAddress (Some 1))
              Redeemer.sent_EOF]
           oneSubscriber ltac:(discriminate)).
Defined.

Lemma oneSubscriber_registryOk : Redeemer.registryOk oneSubscriber.
Proof.
  unfold oneSubscriber. split; cbn [Redeemer.subs Redeemer.nextChan].
  - intros a c H. apply lookup_singleton_Some in H. destruct H as [_ <-]. lia.
  - intros a b c Ha Hb. apply lookup_singleton_Some in Ha. apply lookup_singleton_Some in Hb.
    destruct Ha as [<- _]. destruct Hb as [<- _]. reflexivity.
Qed.

(** With the sample peer registered, a second peer gets a channel of its
    own. *)
Lemma MonitorMaxFloat_keeps_registryOk_witness :
  Redeemer.registryOk oneSubscriber
  /\ Redeemer.registryOk
       (Redeemer.MonitorMaxFloat (Some "10.0.0.8:52000"%string) [] oneSubscriber).2.
Proof.
  split; [exact oneSubscriber_registryOk|].
  exact (MonitorMaxFloat_keeps_registryOk (Some "10.0.0.8:52000"%string) []
           oneSubscriber oneSubscriber_registryOk).
Defined.

(** One subscriber, receiving: the broadcast delivers one message. *)
Lemma broadcast_reaches_everyone_witness :
  exists sent,
    Redeemer.sendMaxFloatUpdate {[ 0%nat ]} otherAddress (Some 500) oneSubscriber
    = Redeemer.Delivered sent
    /\ length sent = size (Redeemer.subs oneSubscriber)
    /\ (forall a c, Redeemer.subs oneSubscriber !! a = Some c ->
                    (c, Redeemer.maxFloatUpdate otherAddress (Some 500)) ∈ sent)
    /\ (forall m, m ∈ sent -> m.2 = Redeemer.maxFloatUpdate otherAddress (Some 500)).
Proof.
  exact (broadcast_reaches_everyone {[ 0%nat ]} otherAddress (Some 500) oneSubscriber
           oneSubscriber_receiving).
Defined.

Lemma sampleChanges_no_quit :
  Redeemer.mon_quit
  ∉ [Redeemer.mon_err "subscription lagging"%string; Redeemer.mon_maxFloat (Some 5);
     Redeemer.mon_maxFloat None].
Proof.
  intros H. repeat (apply elem_of_cons in H; destruct H as [H|H]; [discriminate H|]).
  inversion H.
Qed.

(** An error, then 5, then nil: two updates for the one subscriber, in
    that order. *)
Lemma monitor_relays_changes_in_order_witness :
  Redeemer.monitorMaxFloat_select {[ 0%nat ]} 0 otherAddress
    [Redeemer.mon_err "subscription lagging"%string; Redeemer.mon_maxFloat (Some 5);
     Redeemer.mon_maxFloat None] oneSubscriber
  = (Redeemer.mon_waiting,
     [(0%nat, Redeemer.maxFloatUpdate otherAddress (Some 5));
      (0%nat, Redeemer.maxFloatUpdate otherAddress None)],
     oneSubscriber).
Proof.
  exact (monitor_relays_changes_in_order {[ 0%nat ]} 0 otherAddress
           [Redeemer.mon_err "subscription lagging"%string; Redeemer.mon_maxFloat (Some 5);
            Redeemer.mon_maxFloat None] oneSubscriber
           oneSubscriber_receiving sampleChanges_no_quit).
Defined.

(** The one subscriber has no handler: the monitor blocks at once. *)
Lemma dead_subscriber_stalls_monitor_witness :
  exists c' sent,
    (c' ∉ (∅ : gset nat))
    /\ (length sent < size (Redeemer.subs oneSubscriber))%nat
    /\ forall rest,
         Redeemer.monitorMaxFloat_select ∅ 0 otherAddress
           (Redeemer.mon_maxFloat (Some 5) :: rest) oneSubscriber
         = (Redeemer.mon_blocked c', sent, oneSubscriber).
Proof.
  exact (dead_subscriber_stalls_monitor ∅ 0 otherAddress (Some 5) oneSubscriber
           samplePeer 0 eq_refl (not_elem_of_empty 0%nat)).
Defined.

(** Two ticks on a relay that holds the sample sender since time 0. *)
Lemma startCleanupLoop_two_ticks_witness :
  let st := Redeemer.queueThenSettle accept (protoTicket sampleTicket) Redeemer.initial 0 in
  Redeemer.startCleanupLoop [Redeemer.ev_tick 10; Redeemer.ev_tick (cleanupLoopTime + 1)] st
  = Redeemer.startCleanupLoop [Redeemer.ev_tick (cleanupLoopTime + 1)] st.
Proof.
  exact (proj1 (startCleanupLoop_two_ticks 10 (cleanupLoopTime + 1)
                  (Redeemer.queueThenSettle accept (protoTicket sampleTicket)
                     Redeemer.initial 0)
                  ltac:(unfold cleanupLoopTime; lia))).
Defined.

(** The sample ticket queued at time 5: the entry survives a sweep at time
    6, and is gone after a sweep later than the window. *)
Lemma touched_then_swept_witness :
  Redeemer.liveSenders
    (Redeemer.startCleanupLoop [Redeemer.ev_tick 6]
       (Redeemer.queueThenSettle accept (protoTicket sampleTicket) Redeemer.initial 5))
    !! otherAddress = Some 5
  /\ Redeemer.liveSenders
       (Redeemer.startCleanupLoop [Redeemer.ev_tick (5 + cleanupLoopTime + 1)]
          (Redeemer.queueThenSettle accept (protoTicket sampleTicket) Redeemer.initial 5))
       !! otherAddress = None.
Proof.
  split.
  - exact (touched_then_swept accept (protoTicket sampleTicket) sampleDecoded
             Redeemer.initial 5 6 sampleTicket_decodes eq_refl).
  - exact (touched_then_swept accept (protoTicket sampleTicket) sampleDecoded
             Redeemer.initial 5 (5 + cleanupLoopTime + 1) sampleTicket_decodes eq_refl).
Defined.
